(** * bsd-socker: the capture engine of [src/bsdsocker.c]

    A shallow embedding of the three parts of [bsdsocker.c] that carry the
    program's logic:

    - [initializeDevice]: the probing loop over [/dev/bpf<i>] and the three
      configuration [ioctl]s;
    - [sniff]: the read loop and the walk over the records the kernel packed
      into one read;
    - [signalHandler]: the [SIGINT] handler and the [running] flag.

    Integers are [Z] with the C wrap-around written out where the program
    computes in a fixed width; the read buffer is a list of bytes; system
    calls are answered by an explicit kernel oracle and leave a trace. *)

From Stdlib Require Import ZArith List Bool Lia.
From Stdlib Require Import Strings.Byte.
Import ListNotations.
Local Open Scope Z_scope.

(** ** Platform constants ([signal.h], [errno.h], [net/bpf.h]) *)

(** [SIGINT] and [EACCES] have these values on every BSD. *)
Definition SIGINT : Z := 2.
Definition EACCES : Z := 13.

(** What the program needs to know of [struct bpf_hdr] and of the record
    alignment.  The header is declared by the system's [net/bpf.h]; its
    layout differs between the BSDs, so it is a parameter of the model:
    the alignment unit, the offsets of the two fields the program reads,
    and the host byte order the kernel writes them in. *)
Record bpf_abi : Type := {
  BPF_ALIGNMENT : Z;
  off_bh_caplen : Z;      (* offsetof(struct bpf_hdr, bh_caplen), a u_int32 *)
  off_bh_hdrlen : Z;      (* offsetof(struct bpf_hdr, bh_hdrlen), a u_short *)
  big_endian : bool
}.

(** Modelled from the spec: [BPF_WORDALIGN] is a macro of the system header
    [net/bpf.h], which is not under src/.  Spec, section 4.2: it "rounds x up
    to the next multiple of the platform's kernel-record alignment unit". *)
Definition BPF_WORDALIGN (align x : Z) : Z := (x + (align - 1)) / align * align.

(** Not part of the repository: the text of the macro in the BSD system
    headers, [(((x)+(BPF_ALIGNMENT-1))&~(BPF_ALIGNMENT-1))], kept only to
    compare the definition above with it. *)
Definition BPF_WORDALIGN_mask (align x : Z) : Z :=
  Z.land (x + (align - 1)) (Z.lnot (align - 1)).

(** ** The read buffer and the record header *)

Definition OCTET := byte.
Definition buffer := list OCTET.

Definition octet_value (b : OCTET) : Z := Z.of_N (Byte.to_N b).

(** [memset(bpf_buffer, 0x00, bpf_buff_size)]. *)
Definition zeroed (size : Z) : buffer := repeat x00 (Z.to_nat size).

(** The bytes [off .. off+len-1] of the buffer; [None] when the range leaves
    the allocated block (in C: undefined behaviour). *)
Definition load_bytes (buf : buffer) (off len : Z) : option (list OCTET) :=
  if (0 <=? off) && (off + len <=? Z.of_nat (length buf))
  then Some (firstn (Z.to_nat len) (skipn (Z.to_nat off) buf))
  else None.

Fixpoint le_value (bs : list OCTET) : Z :=
  match bs with
  | [] => 0
  | b :: rest => octet_value b + 256 * le_value rest
  end.

Definition decode_uint (abi : bpf_abi) (bs : list OCTET) : Z :=
  le_value (if big_endian abi then rev bs else bs).

Definition load_uint (abi : bpf_abi) (buf : buffer) (off len : Z) : option Z :=
  option_map (decode_uint abi) (load_bytes buf off len).

(** [bpf_packet->bh_hdrlen] and [bpf_packet->bh_caplen] with
    [bpf_packet = (struct bpf_hdr* ) ptr] and [ptr = bpf_buffer + cursor]. *)
Inductive hdr_field : Type := F_hdrlen | F_caplen.

Definition field_offset (abi : bpf_abi) (f : hdr_field) : Z :=
  match f with F_hdrlen => off_bh_hdrlen abi | F_caplen => off_bh_caplen abi end.

Definition field_size (f : hdr_field) : Z :=
  match f with F_hdrlen => 2 | F_caplen => 4 end.

Definition load_field (abi : bpf_abi) (buf : buffer) (cursor : Z) (f : hdr_field)
  : option Z :=
  load_uint abi buf (cursor + field_offset abi f) (field_size f).

Record bpf_hdr : Type := { bh_caplen : Z; bh_hdrlen : Z }.

Definition hdr_at (abi : bpf_abi) (buf : buffer) (cursor : Z) : option bpf_hdr :=
  match load_field abi buf cursor F_hdrlen, load_field abi buf cursor F_caplen with
  | Some h, Some c => Some {| bh_caplen := c; bh_hdrlen := h |}
  | _, _ => None
  end.

(** [bpf_packet->bh_hdrlen + bpf_packet->bh_caplen]: the [u_short] is
    promoted and the sum is computed in [unsigned int]. *)
Definition record_length (h : bpf_hdr) : Z := (bh_hdrlen h + bh_caplen h) mod 2 ^ 32.

(** The step of line 190: [BPF_WORDALIGN(bh_hdrlen + bh_caplen)].  The
    macro works in [size_t], where rounding up a 32-bit value does not
    wrap. *)
Definition advance (abi : bpf_abi) (h : bpf_hdr) : Z :=
  BPF_WORDALIGN (BPF_ALIGNMENT abi) (record_length h).

(** ** What the program does to the outside *)

Inductive event : Type :=
| Read (ret : Z)                      (* read(bpf, bpf_buffer, ...) returned ret *)
| Fetch (cursor : Z) (f : hdr_field)   (* a header field fetched at ptr *)
| Sink (payload caplen : Z).          (* EthernetFrame_output(buffer+payload, caplen) *)

Definition is_read (e : event) : bool :=
  match e with Read _ => true | _ => false end.

Definition read_calls (tr : list event) : list event := filter is_read tr.

Definition sink_calls (tr : list event) : list (Z * Z) :=
  flat_map (fun e => match e with Sink p c => [(p, c)] | _ => [] end) tr.



(** ** The buffer walk (lines 177-191) *)

Inductive walk_status : Type :=
| Advance (cursor' : Z)   (* line 190 executed, back to the loop test *)
| Exit                    (* the loop test of line 177 failed *)
| Fault.                  (* a header field lies outside the allocated buffer *)

(** One evaluation of the loop test and, when it holds, of the body:
    line 181 fetches [bh_hdrlen], line 184 fetches [bh_caplen] and calls the
    sink, line 190 fetches both again and moves [ptr].  [cursor] is
    [ptr - bpf_buffer]; pointers are wide enough for it not to wrap.  A
    fetch outside the allocated block is a [Fault]; a pointer that merely
    ends up past the block is not. *)
Definition walk_step (abi : bpf_abi) (buf : buffer) (read_bytes cursor : Z)
  : list event * walk_status :=
  if cursor <? read_bytes then
    match load_field abi buf cursor F_hdrlen with
    | None => ([Fetch cursor F_hdrlen], Fault)
    | Some hdrlen =>
      match load_field abi buf cursor F_caplen with
      | None => ([Fetch cursor F_hdrlen; Fetch cursor F_caplen], Fault)
      | Some caplen =>
        let h := {| bh_caplen := caplen; bh_hdrlen := hdrlen |} in
        ([Fetch cursor F_hdrlen;
          Fetch cursor F_caplen; Sink (cursor + hdrlen) caplen;
          Fetch cursor F_hdrlen; Fetch cursor F_caplen],
         Advance (cursor + advance abi h))
      end
    end
  else ([], Exit).

Inductive walk_result : Type :=
| Finished (cursor : Z)     (* the inner while loop was left *)
| Faulted (cursor : Z)      (* undefined behaviour at this cursor *)
| Unfinished (cursor : Z).  (* still inside the loop when the fuel ran out *)

Fixpoint walk (abi : bpf_abi) (buf : buffer) (read_bytes : Z) (fuel : nat)
  (cursor : Z) : list event * walk_result :=
  match fuel with
  | O => ([], Unfinished cursor)
  | S fuel' =>
    match walk_step abi buf read_bytes cursor with
    | (evs, Advance cursor') =>
      let (tr, r) := walk abi buf read_bytes fuel' cursor' in (evs ++ tr, r)
    | (evs, Exit) => (evs, Finished cursor)
    | (evs, Fault) => (evs, Faulted cursor)
    end
  end.

(** ** The process: the [running] flag, the [SIGINT] disposition, [sniff] *)

(** What the kernel does when [SIGINT] arrives. *)
Inductive sig_action : Type :=
| SIG_DFL          (* default action: the process is terminated *)
| Installed.       (* signalHandler is called *)

(** Where the process is inside [sniff].  The buffer is overwritten in full
    by the [memset] and the [read] of every iteration, so its content is
    only carried while it is walked. *)
Inductive control : Type :=
| LoopHead                                     (* about to test [running] *)
| Reading                                      (* test passed: memset, read *)
| Walking (bpf_buffer : buffer) (read_bytes cursor : Z)
| Returned                                     (* sniff has returned *)
| Trapped                                      (* undefined behaviour *)
| Killed.                                      (* terminated by SIGINT *)

Record process : Type := {
  running : bool;
  sigint_action : sig_action;
  ctl : control
}.

Definition set_running (b : bool) (p : process) : process :=
  {| running := b; sigint_action := sigint_action p; ctl := ctl p |}.

Definition set_ctl (c : control) (p : process) : process :=
  {| running := running p; sigint_action := sigint_action p; ctl := c |}.

(** [signal(SIGINT, h)]. *)
Definition signal_SIGINT (h : sig_action) (p : process) : process :=
  {| running := running p; sigint_action := h; ctl := ctl p |}.

(** [static void signalHandler(int sig_num)], lines 212-227. *)
Definition signalHandler (sig_num : Z) (p : process) : process :=
  let p := signal_SIGINT Installed p in
  if sig_num =? SIGINT then set_running false p else p.

Definition alive (p : process) : bool :=
  match ctl p with Trapped | Killed => false | _ => true end.

(** The kernel delivers [SIGINT].  With [resets = true] the disposition goes
    back to [SIG_DFL] before the handler is entered (the System V behaviour
    of [signal]); with [resets = false] it stays (the BSD behaviour).  The
    handler runs to completion before the program goes on. *)
Definition deliver_SIGINT (resets : bool) (p : process) : process :=
  if alive p then
    match sigint_action p with
    | SIG_DFL => set_ctl Killed p
    | Installed =>
      signalHandler SIGINT (if resets then signal_SIGINT SIG_DFL p else p)
    end
  else p.

(** The state in which [main] calls [sniff]: [running] still has its
    initialiser and line 38 has registered the handler. *)
Definition process_start : process :=
  {| running := true; sigint_action := SIG_DFL; ctl := LoopHead |}.

Definition main_prologue : process := signal_SIGINT Installed process_start.

(** What one [read(bpf, bpf_buffer, bpf_buff_size)] does: its return value
    and the bytes the kernel copied out. *)
Record read_reply : Type := { rr_ret : Z; rr_data : list OCTET }.

(** The buffer after the [memset] and the [read] of lines 168-171: the
    bytes the kernel copied, at most [bpf_buff_size] of them, in front of
    what is left of the zeroes. *)
Definition after_read (bpf_buff_size : Z) (k : read_reply) : buffer :=
  let got := firstn (Z.to_nat (Z.min (rr_ret k) bpf_buff_size)) (rr_data k) in
  got ++ skipn (length got) (zeroed bpf_buff_size).

(** One step of [sniff] (lines 166-193): the test of [running], the
    [memset] and [read], or one turn of the inner loop.  [k] is what the
    kernel answers if this step is the [read]; [rr_ret k] is the value
    stored in [read_bytes].  The [malloc] of line 162 is taken to have
    succeeded. *)
Definition sniff_step (abi : bpf_abi) (bpf_buff_size : Z) (k : read_reply)
  (p : process) : list event * process :=
  match ctl p with
  | LoopHead =>
    ([], if running p then set_ctl Reading p else set_ctl Returned p)
  | Reading =>
    let read_bytes := rr_ret k in
    ([Read read_bytes],
     if 0 <? read_bytes
     then set_ctl (Walking (after_read bpf_buff_size k) read_bytes 0) p
     else set_ctl LoopHead p)
  | Walking buf read_bytes cursor =>
    match walk_step abi buf read_bytes cursor with
    | (evs, Advance cursor') => (evs, set_ctl (Walking buf read_bytes cursor') p)
    | (evs, Exit) => (evs, set_ctl LoopHead p)
    | (evs, Fault) => (evs, set_ctl Trapped p)
    end
  | Returned | Trapped | Killed => ([], p)
  end.

(** The reads still to come from the iteration the process is in, once
    [running] is false: the one it has already decided to make. *)
Definition pending_reads (c : control) : nat :=
  match c with Reading => 1%nat | _ => 0%nat end.

(** An execution interleaves steps of the program with signal deliveries. *)
Inductive action : Type :=
| Step (k : read_reply)
| Interrupt.

Definition act (abi : bpf_abi) (bpf_buff_size : Z) (resets : bool) (a : action)
  (p : process) : list event * process :=
  match a with
  | Step k => sniff_step abi bpf_buff_size k p
  | Interrupt => ([], deliver_SIGINT resets p)
  end.

Fixpoint run (abi : bpf_abi) (bpf_buff_size : Z) (resets : bool)
  (acts : list action) (p : process) : list event * process :=
  match acts with
  | [] => ([], p)
  | a :: rest =>
    let (evs, p') := act abi bpf_buff_size resets a p in
    let (tr, p'') := run abi bpf_buff_size resets rest p' in
    (evs ++ tr, p'')
  end.

(** ** [initializeDevice] (lines 92-155) *)

(** The answer of the kernel to a system call: success with a value (a
    descriptor is never negative), or failure with the [errno] it sets. *)
Inductive sysret : Type :=
| SysOk (v : N)
| SysErr (err : Z).

Definition c_ret (r : sysret) : Z :=
  match r with SysOk v => Z.of_N v | SysErr _ => -1 end.

Inductive request : Type :=
| BIOCSETIF (ifr_name : list OCTET)
| BIOCIMMEDIATE (on : Z)
| BIOCGBLEN.

(** The system calls of [initializeDevice].  A device path is represented
    by its index; that the path fits [buffer_char] and the interface name
    fits [ifr_name] is taken for granted. *)
Inductive syscall : Type :=
| Open (index : Z)                 (* open("/dev/bpf<index>", O_RDWR | O_NONBLOCK) *)
| Ioctl (fd : Z) (req : request).

Record kernel : Type := {
  k_open : Z -> sysret;
  k_ioctl : Z -> request -> sysret
}.

(** The four ways [initializeDevice] calls [fatal], under the names the
    specification gives them (lines 109, 115, 125, 138 and 147). *)
Inductive fatal_error : Type :=
| PermissionDenied
| DeviceUnavailable (last_errno : Z)
| InterfaceBindFailed (err : Z)
| ConfigurationFailed (err : Z).

Record os : Type := { errno : Z; calls : list syscall }.

Inductive outcome (A : Type) : Type :=
| Value (a : A)
| Fatal (e : fatal_error)
| Undefined.
Arguments Value {A} a.
Arguments Fatal {A} e.
Arguments Undefined {A}.

Definition io (A : Type) : Type := os -> outcome A * os.

Definition ret {A} (a : A) : io A := fun s => (Value a, s).

Definition bind {A B} (m : io A) (f : A -> io B) : io B :=
  fun s =>
    match m s with
    | (Value a, s') => f a s'
    | (Fatal e, s') => (Fatal e, s')
    | (Undefined, s') => (Undefined, s')
    end.

Notation "x <- m ;; f" := (bind m (fun x => f))
  (at level 61, m at next level, right associativity).

(** Modelled from the spec: [fatal] is declared in [logger.h], which is not
    under src/.  Spec, sections 4.1 and 7: every failure of the
    initialisation is fatal to the process, nothing runs after it. *)
Definition fatal {A} (e : fatal_error) : io A := fun s => (Fatal e, s).

Definition undefined {A} : io A := fun s => (Undefined, s).

Definition get_errno : io Z := fun s => (Value (errno s), s).

(** A system call: it is logged, it returns [ret], and a failure stores
    its [errno]. *)
Definition sys (c : syscall) (r : sysret) (ret_val : Z) : io Z :=
  fun s =>
    (Value ret_val,
     {| errno := match r with SysErr e => e | SysOk _ => errno s end;
        calls := calls s ++ [c] |}).

(** [open] returns the new descriptor, or [-1]. *)
Definition sys_open (K : kernel) (i : Z) : io Z :=
  sys (Open i) (k_open K i) (c_ret (k_open K i)).

(** [ioctl] returns [0], or [-1]; for [BIOCGBLEN] the [SysOk] value is what
    the kernel stores through the argument. *)
Definition sys_ioctl (K : kernel) (fd : Z) (req : request) : io Z :=
  sys (Ioctl fd req) (k_ioctl K fd req)
      (match k_ioctl K fd req with SysOk _ => 0 | SysErr _ => -1 end).

(** The [for] loop of lines 98-112: [todo] turns are left, [i] is the next
    index, [bpf] is the variable of that name ([None]: not yet assigned). *)
Fixpoint open_loop (K : kernel) (todo : nat) (i : Z) (bpf : option Z)
  : io (option Z) :=
  match todo with
  | O => ret bpf
  | S todo' =>
    fd <- sys_open K i ;;
    if negb (fd =? -1) then ret (Some fd)
    else
      e <- get_errno ;;
      if e =? EACCES then fatal PermissionDenied
      else open_loop K todo' (i + 1) (Some fd)
  end.

(** Lines 98-120: the loop and the test of [bpf] that follows it.
    [MAX_BPF_DEVICES] comes from a header that is not under src/ and is a
    parameter. *)
Definition open_device (K : kernel) (MAX_BPF_DEVICES : nat) : io Z :=
  bpf <- open_loop K MAX_BPF_DEVICES 0 None ;;
  match bpf with
  | None => undefined
  | Some fd =>
    if fd =? -1 then e <- get_errno ;; fatal (DeviceUnavailable e)
    else ret fd
  end.

(** The [int] whose 32 bits are those of the unsigned value [v]. *)
Definition as_int (v : Z) : Z := (v + 2 ^ 31) mod 2 ^ 32 - 2 ^ 31.

(** What the caller finds in [*bpf_buff_size] after [BIOCGBLEN]: the kernel
    stores a [u_int] through the argument, which line 146 passes as an
    [int*] (the variable of line 30). *)
Definition ioctl_out (r : sysret) : Z :=
  match r with SysOk v => as_int (Z.of_N v) | SysErr _ => 0 end.

(** Lines 122-154: bind to the interface, switch on immediate mode, ask
    for the buffer length.  The result is [( *descriptor, *bpf_buff_size)].
    [interface_name] is what [Options_getInterfaceName()] returns. *)
Definition configure_device (K : kernel) (interface_name : list OCTET)
  (bpf : Z) : io (Z * Z) :=
  r1 <- sys_ioctl K bpf (BIOCSETIF interface_name) ;;
  if r1 =? -1 then e <- get_errno ;; fatal (InterfaceBindFailed e)
  else
    r2 <- sys_ioctl K bpf (BIOCIMMEDIATE 1) ;;
    if r2 =? -1 then e <- get_errno ;; fatal (ConfigurationFailed e)
    else
      r3 <- sys_ioctl K bpf BIOCGBLEN ;;
      if r3 =? -1 then e <- get_errno ;; fatal (ConfigurationFailed e)
      else ret (bpf, ioctl_out (k_ioctl K bpf BIOCGBLEN)).

(** The whole function. *)
Definition initializeDevice (K : kernel) (MAX_BPF_DEVICES : nat)
  (interface_name : list OCTET) : io (Z * Z) :=
  bpf <- open_device K MAX_BPF_DEVICES ;;
  configure_device K interface_name bpf.

(** The indices [open] was called with, in order. *)
Definition opened_indices (cs : list syscall) : list Z :=
  flat_map (fun c => match c with Open i => [i] | Ioctl _ _ => [] end) cs.

Definition os_start (e : Z) : os := {| errno := e; calls := [] |}.

(** The indices [i, i+1, ..., i+n-1]. *)
Fixpoint indices (i : Z) (n : nat) : list Z :=
  match n with
  | O => []
  | S n' => i :: indices (i + 1) n'
  end.

(** [open] fails at this index, and not for want of permission. *)
Definition busy (K : kernel) (j : Z) : Prop :=
  exists e, k_open K j = SysErr e /\ e <> EACCES.

(** ** Concrete platforms and buffers *)

(** macOS: [struct bpf_hdr] starts with a [struct timeval32] (8 bytes),
    [BPF_ALIGNMENT] is [sizeof(int32_t)], the kernel writes
    [bh_hdrlen = 18]. *)
Definition abi_darwin : bpf_abi :=
  {| BPF_ALIGNMENT := 4; off_bh_caplen := 8; off_bh_hdrlen := 16;
     big_endian := false |}.

(** The platform of the specification's examples: the same 18-byte header
    with an 8-byte alignment unit. *)
Definition abi_align8 : bpf_abi :=
  {| BPF_ALIGNMENT := 8; off_bh_caplen := 8; off_bh_hdrlen := 16;
     big_endian := false |}.

Definition octet_of (v : Z) : OCTET :=
  match Byte.of_N (Z.to_N (v mod 256)) with Some b => b | None => x00 end.

Fixpoint le_bytes (len : nat) (v : Z) : list OCTET :=
  match len with
  | O => []
  | S len' => octet_of v :: le_bytes len' (v / 256)
  end.

(** A record as the kernel lays it out on these two platforms: time stamp,
    [bh_caplen], [bh_datalen], [bh_hdrlen = 18], the captured bytes, and
    zero padding up to [total] bytes. *)
Definition packed_record (caplen total : nat) (fill : OCTET) : list OCTET :=
  let body :=
    repeat x00 8 ++ le_bytes 4 (Z.of_nat caplen) ++ le_bytes 4 (Z.of_nat caplen)
    ++ le_bytes 2 18 ++ repeat fill caplen in
  body ++ repeat x00 (total - length body).

(** A read of 96 bytes: a 64-byte record and a 32-byte record. *)
Definition reply_two_records : read_reply :=
  {| rr_ret := 96;
     rr_data := packed_record 46 64 "a"%byte ++ packed_record 10 32 "b"%byte |}.

(** A read of 70 bytes: a 64-byte record and six more bytes. *)
Definition reply_truncated : read_reply :=
  {| rr_ret := 70;
     rr_data := packed_record 46 64 "a"%byte ++ repeat xff 6 |}.

(** A read of one byte into a cleared buffer. *)
Definition reply_one_byte : read_reply := {| rr_ret := 1; rr_data := [x00] |}.

(** A kernel whose [/dev/bpf<i>] are described by a list of answers;
    every [ioctl] succeeds and the buffer length is 4096. *)
Definition kernel_of (opens : list sysret) : kernel :=
  {| k_open := fun i =>
       if i <? 0 then SysErr 2 else nth (Z.to_nat i) opens (SysErr 2);
     k_ioctl := fun _ req =>
       match req with BIOCGBLEN => SysOk 4096 | _ => SysOk 0 end |}.

Definition EBUSY : Z := 16.
Definition ENOENT : Z := 2.

Definition en0 : list OCTET := ["e"%byte; "n"%byte; "0"%byte].

(** ** Vocabulary for the properties of the walk *)

(** The events of one turn of the loop body at [cursor], for the header
    [h] found there. *)
Definition body_events (cursor : Z) (h : bpf_hdr) : list event :=
  [Fetch cursor F_hdrlen;
   Fetch cursor F_caplen; Sink (cursor + bh_hdrlen h) (bh_caplen h);
   Fetch cursor F_hdrlen; Fetch cursor F_caplen].

(** The three ways a turn of the inner loop can go. *)
Inductive turn (abi : bpf_abi) (buf : buffer) (read_bytes c : Z)
  : list event -> walk_status -> Prop :=
| turn_body h :
    c < read_bytes -> hdr_at abi buf c = Some h ->
    turn abi buf read_bytes c (body_events c h) (Advance (c + advance abi h))
| turn_exit :
    read_bytes <= c -> turn abi buf read_bytes c [] Exit
| turn_fault evs :
    c < read_bytes -> hdr_at abi buf c = None ->
    (forall e, In e evs -> exists f, e = Fetch c f) ->
    turn abi buf read_bytes c evs Fault.

(** An event of the walk comes from a turn whose cursor passed the test of
    line 177: a header field is fetched at a cursor below [read_bytes], a
    frame is handed over as the header at such a cursor describes it. *)
Definition guarded (abi : bpf_abi) (buf : buffer) (read_bytes : Z) (e : event)
  : Prop :=
  match e with
  | Fetch c _ => c < read_bytes
  | Sink p cl =>
    exists c h, c < read_bytes /\ hdr_at abi buf c = Some h
                /\ p = c + bh_hdrlen h /\ cl = bh_caplen h
  | Read _ => False
  end.



(** ** [parseArguments] (lines 61-86) *)

(** What one call of [getopt(argc, argv, "ho:i:")] leaves behind: its
    return value and the globals [optarg] and [optopt]. *)
Record getopt_reply : Type := {
  go_ret : Z;
  go_optarg : list OCTET;
  go_optopt : Z
}.

(** The character constants of the [switch]. *)
Definition char_h : Z := 104.
Definition char_o : Z := 111.
Definition char_i : Z := 105.

(** The calls [parseArguments] makes, in order. *)
Inductive cli_call : Type :=
| PrintUsage                                (* output(NULL, "USAGE: ...") *)
| SetOutputFile (optarg : list OCTET)       (* Options_setOutputFile(optarg) *)
| SetInterfaceName (optarg : list OCTET)    (* Options_setInterfaceName(optarg) *)
| ReportInvalid (optopt : Z)                (* fatal("Invalid option ...", optopt) *)
| CheckRequired                             (* Options_checkForRequiredOptions() *)
| LogOptions.                               (* Options_logOptions() *)

Inductive cli_end : Type :=
| CliExit (status : Z)     (* exit(0) of line 69 *)
| CliFatal                 (* fatal *)
| CliParsed.               (* the function returns to main *)

(** The [while] loop of lines 65-82.  [replies] are the answers of the
    successive calls of [getopt]; once they are used up it answers [-1]. *)
Fixpoint getopt_loop (replies : list getopt_reply) : list cli_call * cli_end :=
  match replies with
  | [] => ([], CliParsed)
  | r :: rest =>
    if go_ret r =? -1 then ([], CliParsed)
    else if go_ret r =? char_h then ([PrintUsage], CliExit 0)
    else if go_ret r =? char_o then
      let (made, e) := getopt_loop rest in
      (SetOutputFile (go_optarg r) :: made, e)
    else if go_ret r =? char_i then
      let (made, e) := getopt_loop rest in
      (SetInterfaceName (go_optarg r) :: made, e)
    else ([ReportInvalid (go_optopt r)], CliFatal)
  end.

(** The whole function.  [Options_checkForRequiredOptions] is declared in
    [options.h], which is not under src/; whether it returns or ends the
    process is the input [required_ok]. *)
Definition parseArguments (replies : list getopt_reply) (required_ok : bool)
  : list cli_call * cli_end :=
  match getopt_loop replies with
  | (made, CliParsed) =>
    if required_ok then (made ++ [CheckRequired; LogOptions], CliParsed)
    else (made ++ [CheckRequired], CliFatal)
  | stopped => stopped
  end.

(** An answer of [getopt] for [-o] or [-i], and the call it leads to. *)
Definition is_setter (r : getopt_reply) : bool :=
  (go_ret r =? char_o) || (go_ret r =? char_i).

Definition setter_call (r : getopt_reply) : cli_call :=
  if go_ret r =? char_o then SetOutputFile (go_optarg r)
  else SetInterfaceName (go_optarg r).

(** ** Further vocabulary *)

(** The cursor a walk result carries. *)
Definition result_cursor (r : walk_result) : Z :=
  match r with Finished c | Faulted c | Unfinished c => c end.

(** The three [ioctl]s of lines 122-151, on descriptor [d]. *)
Definition configuration_calls (interface_name : list OCTET) (d : Z)
  : list syscall :=
  [Ioctl d (BIOCSETIF interface_name); Ioctl d (BIOCIMMEDIATE 1);
   Ioctl d BIOCGBLEN].

(** The kernel answers this [ioctl] on [d] with success. *)
Definition ioctl_ok (K : kernel) (d : Z) (req : request) : Prop :=
  exists v, k_ioctl K d req = SysOk v.

(** [open] succeeds at index [k] with descriptor [fd], every index before
    it being busy: the device the loop of lines 98-112 stops at. *)
Definition first_open (K : kernel) (k : nat) (fd : N) : Prop :=
  (forall j, 0 <= j < Z.of_nat k -> busy K j)
  /\ k_open K (Z.of_nat k) = SysOk fd.

(** A kernel whose second device opens but cannot be bound to the
    interface ([ENXIO]); the other [ioctl]s would succeed. *)
Definition ENXIO : Z := 6.

Definition kernel_bind_fails : kernel :=
  {| k_open := fun i => if i =? 1 then SysOk 3 else SysErr EBUSY;
     k_ioctl := fun _ req =>
       match req with
       | BIOCSETIF _ => SysErr ENXIO
       | BIOCGBLEN => SysOk 4096
       | BIOCIMMEDIATE _ => SysOk 0
       end |}.

(** A read of one 18-byte header whose [bh_caplen] is [2^32 - 18]. *)
Definition reply_wrapping : read_reply :=
  {| rr_ret := 18;
     rr_data := repeat x00 8 ++ le_bytes 4 4294967278 ++ le_bytes 4 0
                ++ le_bytes 2 18 |}.

(** Whole records in a row: [hs] are the headers found at the cursor and
    at the cursors that follow from the lengths they declare, each cursor
    below [read_bytes]. *)
Fixpoint laid_out (abi : bpf_abi) (buf : buffer) (read_bytes c : Z)
  (hs : list bpf_hdr) : Prop :=
  match hs with
  | [] => True
  | h :: rest =>
    c < read_bytes /\ hdr_at abi buf c = Some h
    /\ laid_out abi buf read_bytes (c + advance abi h) rest
  end.

(** Where such a row ends, and the frames in it: (payload offset,
    captured length). *)
Fixpoint end_of (abi : bpf_abi) (c : Z) (hs : list bpf_hdr) : Z :=
  match hs with
  | [] => c
  | h :: rest => end_of abi (c + advance abi h) rest
  end.

Fixpoint frames (abi : bpf_abi) (c : Z) (hs : list bpf_hdr) : list (Z * Z) :=
  match hs with
  | [] => []
  | h :: rest =>
    (c + bh_hdrlen h, bh_caplen h) :: frames abi (c + advance abi h) rest
  end.

(** A read that finds nothing. *)
Definition reply_no_data : read_reply := {| rr_ret := 0; rr_data := [] |}.

(** ** [main] (lines 29-55) and [deinitializeDevice] (lines 203-206) *)

(** What a run of the program does to the outside, phase by phase. *)
Inductive main_event : Type :=
| Cli (c : cli_call)        (* a call made by parseArguments *)
| Sys (c : syscall)         (* a system call of initializeDevice *)
| Capture (e : event)       (* what sniff does *)
| Close (fd : Z).           (* close(bpf) *)

Inductive main_end : Type :=
| Exited (status : Z)       (* exit(0) of line 69, or the return 0 of main *)
| Died                      (* fatal, or the default action of SIGINT *)
| Erratic                   (* undefined behaviour *)
| Capturing (p : process).  (* sniff is still running when the schedule ends *)

(** What a run depends on.  [verifyConfiguration] comes from a header that
    is not under src/; the comment of lines 32-33 says it is fatal when the
    configuration is wrong, and whether it returns is [mi_config_ok].
    [mi_interface_name] is what [Options_getInterfaceName()] returns.
    [mi_early_sigints] counts the deliveries of [SIGINT] between line 38
    and the call of [sniff]; [mi_schedule] is the execution of [sniff]. *)
Record main_input : Type := {
  mi_config_ok : bool;
  mi_getopt : list getopt_reply;
  mi_required_ok : bool;
  mi_interface_name : list OCTET;
  mi_kernel : kernel;
  mi_errno : Z;
  mi_early_sigints : nat;
  mi_schedule : list action
}.

(** [static void deinitializeDevice(int bpf)]: [close(bpf)], its result
    unused, and a log line. *)
Definition deinitializeDevice (bpf : Z) : list main_event := [Close bpf].

Fixpoint deliveries (resets : bool) (n : nat) (p : process) : process :=
  match n with
  | O => p
  | S n' => deliveries resets n' (deliver_SIGINT resets p)
  end.

(** [int main(int argc, char** argv)]. *)
Definition main (abi : bpf_abi) (MAX_BPF_DEVICES : nat) (resets : bool)
  (i : main_input) : list main_event * main_end :=
  if mi_config_ok i then
    match parseArguments (mi_getopt i) (mi_required_ok i) with
    | (cli, CliExit status) => (map Cli cli, Exited status)
    | (cli, CliFatal) => (map Cli cli, Died)
    | (cli, CliParsed) =>
      match initializeDevice (mi_kernel i) MAX_BPF_DEVICES
                             (mi_interface_name i) (os_start (mi_errno i)) with
      | (Fatal _, s) => (map Cli cli ++ map Sys (calls s), Died)
      | (Undefined, s) => (map Cli cli ++ map Sys (calls s), Erratic)
      | (Value (bpf, bpf_buff_size), s) =>
        let p0 := deliveries resets (mi_early_sigints i) main_prologue in
        let (tr, p) := run abi bpf_buff_size resets (mi_schedule i) p0 in
        let before := map Cli cli ++ map Sys (calls s) ++ map Capture tr in
        match ctl p with
        | Returned => (before ++ deinitializeDevice bpf, Exited 0)
        | Trapped => (before, Erratic)
        | Killed => (before, Died)
        | LoopHead | Reading | Walking _ _ _ => (before, Capturing p)
        end
      end
    end
  else ([], Died).

Definition is_close (e : main_event) : bool :=
  match e with Close _ => true | _ => false end.

(** A command line [-i en0], a kernel whose third device is free, and an
    interrupt that arrives while the device is being set up. *)
Definition input_interrupted_early : main_input :=
  {| mi_config_ok := true;
     mi_getopt := [{| go_ret := char_i; go_optarg := en0; go_optopt := 0 |}];
     mi_required_ok := true;
     mi_interface_name := en0;
     mi_kernel := kernel_of [SysErr EBUSY; SysErr ENOENT; SysOk 3];
     mi_errno := 0;
     mi_early_sigints := 1;
     mi_schedule := [Step reply_two_records] |}.

(** The process is stopped, the handler is installed, and [sniff] stands
    at the loop test or has returned. *)
Definition winding_up (p : process) : Prop :=
  running p = false /\ sigint_action p = Installed
  /\ (ctl p = LoopHead \/ ctl p = Returned).

(** The sizes of the two character buffers of [initializeDevice]:
    [buffer_char] (line 94) and [ifr_name] of [struct ifreq]. *)
Definition buffer_char_size : Z := 11.
Definition IFNAMSIZ : Z := 16.

(** The length of what [sprintf(buffer_char, "/dev/bpf%u", i)] writes for
    an index below 1000, terminator included. *)
Definition device_path_size (i : Z) : Z :=
  8 + (if i <? 10 then 1 else if i <? 100 then 2 else 3) + 1.

(** The writes of lines 100 and 123 stay inside their buffers: every
    device path of the loop fits [buffer_char] and the interface name fits
    [ifr_name].  The model of [initializeDevice] says nothing about runs in
    which they do not. *)
Definition buffers_hold (MAX_BPF_DEVICES : nat) (interface_name : list OCTET)
  : Prop :=
  (forall i, 0 <= i < Z.of_nat MAX_BPF_DEVICES ->
             device_path_size i <= buffer_char_size)
  /\ Z.of_nat (length interface_name) + 1 <= IFNAMSIZ.

(** [sniff] returns in some execution that starts from [p]. *)
Definition sniff_can_return (abi : bpf_abi) (bpf_buff_size : Z)
  (resets : bool) (p : process) : Prop :=
  exists acts, ctl (snd (run abi bpf_buff_size resets acts p)) = Returned.

(** The process after [sniff] has read one byte into the cleared buffer
    and a [SIGINT] has arrived during the walk. *)
Definition process_interrupted_in_walk : process :=
  snd (run abi_darwin 4096 false
           [Step reply_one_byte; Step reply_one_byte; Interrupt]
           main_prologue).

(** * Properties *)

(** ** Word alignment *)

Section Alignment.

Variable a : Z.
Hypothesis a_pos : 0 < a.

Lemma BPF_WORDALIGN_multiple (x : Z) : (BPF_WORDALIGN a x) mod a = 0.
Proof. unfold BPF_WORDALIGN. apply Z.mod_mul. lia. Qed.

Lemma BPF_WORDALIGN_bounds (x : Z) :
  x <= BPF_WORDALIGN a x < x + a.
Proof.
  unfold BPF_WORDALIGN.
  pose proof (Z.div_mod (x + (a - 1)) a ltac:(lia)) as E.
  pose proof (Z.mod_pos_bound (x + (a - 1)) a a_pos) as B.
  nia.
Qed.

Lemma BPF_WORDALIGN_fixes_multiples (q : Z) : BPF_WORDALIGN a (q * a) = q * a.
Proof.
  unfold BPF_WORDALIGN.
  rewrite Z.div_add_l by lia.
  rewrite (Z.div_small (a - 1) a) by lia.
  f_equal. lia.
Qed.

Lemma BPF_WORDALIGN_idem (x : Z) :
  BPF_WORDALIGN a (BPF_WORDALIGN a x) = BPF_WORDALIGN a x.
Proof.
  unfold BPF_WORDALIGN at 2 3.
  apply BPF_WORDALIGN_fixes_multiples.
Qed.

Lemma BPF_WORDALIGN_nonneg (x : Z) : 0 <= x -> 0 <= BPF_WORDALIGN a x.
Proof. pose proof (BPF_WORDALIGN_bounds x). lia. Qed.

Lemma BPF_WORDALIGN_zero (x : Z) : 0 <= x -> BPF_WORDALIGN a x = 0 -> x = 0.
Proof. pose proof (BPF_WORDALIGN_bounds x). lia. Qed.

End Alignment.

(** For a power of two, rounding up to the next multiple is what the mask
    of the BSD headers computes. *)
Lemma BPF_WORDALIGN_mask_spec (k x : Z) :
  0 <= k -> BPF_WORDALIGN_mask (2 ^ k) x = BPF_WORDALIGN (2 ^ k) x.
Proof.
  intros Hk. unfold BPF_WORDALIGN_mask, BPF_WORDALIGN.
  rewrite <- Z.ldiff_land.
  replace (2 ^ k - 1) with (Z.ones k) by (rewrite Z.ones_equiv; lia).
  rewrite Z.ldiff_ones_r by assumption.
  rewrite Z.shiftr_div_pow2, Z.shiftl_mul_pow2 by assumption.
  reflexivity.
Qed.

(** C3. For every alignment unit [a > 0] and every non-negative [x],
    [BPF_WORDALIGN] is idempotent, [wordAlign (wordAlign x) = wordAlign x],
    and monotonic, [x <= wordAlign x < x + a]; with the 8-byte unit,
    [wordAlign 18 = 24] and [wordAlign 24 = 24]. *)
Theorem BPF_WORDALIGN_idempotent_monotonic (a x : Z) :
  0 < a -> 0 <= x ->
  BPF_WORDALIGN a (BPF_WORDALIGN a x) = BPF_WORDALIGN a x
  /\ x <= BPF_WORDALIGN a x < x + a
  /\ BPF_WORDALIGN 8 18 = 24
  /\ BPF_WORDALIGN 8 24 = 24.
Proof.
  intros Ha _. split; [| split; [| split]].
  - apply BPF_WORDALIGN_idem; assumption.
  - apply BPF_WORDALIGN_bounds; assumption.
  - reflexivity.
  - reflexivity.
Qed.

Lemma BPF_WORDALIGN_idempotent_monotonic_witness :
  BPF_WORDALIGN 8 (BPF_WORDALIGN 8 18) = BPF_WORDALIGN 8 18
  /\ 18 <= BPF_WORDALIGN 8 18 < 18 + 8
  /\ BPF_WORDALIGN 8 18 = 24
  /\ BPF_WORDALIGN 8 24 = 24.
Proof. apply (BPF_WORDALIGN_idempotent_monotonic 8 18); lia. Defined.

(** ** The buffer walk *)

Section Walk.

Variable abi : bpf_abi.
Variable buf : buffer.
Variable read_bytes : Z.

Lemma hdr_at_fields (c : Z) (h : bpf_hdr) :
  hdr_at abi buf c = Some h ->
  load_field abi buf c F_hdrlen = Some (bh_hdrlen h)
  /\ load_field abi buf c F_caplen = Some (bh_caplen h).
Proof.
  unfold hdr_at.
  destruct (load_field abi buf c F_hdrlen) as [x|]; [| discriminate].
  destruct (load_field abi buf c F_caplen) as [y|]; [| discriminate].
  intros E. inversion E. auto.
Qed.

Lemma walk_step_body (c : Z) (h : bpf_hdr) :
  c < read_bytes -> hdr_at abi buf c = Some h ->
  walk_step abi buf read_bytes c
  = (body_events c h, Advance (c + advance abi h)).
Proof.
  intros Hc Hh. apply hdr_at_fields in Hh as [E1 E2].
  unfold walk_step. rewrite (proj2 (Z.ltb_lt _ _) Hc), E1, E2.
  destruct h; reflexivity.
Qed.

Lemma walk_step_exit (c : Z) :
  read_bytes <= c -> walk_step abi buf read_bytes c = ([], Exit).
Proof.
  intros Hc. unfold walk_step.
  rewrite (proj2 (Z.ltb_ge _ _) Hc). reflexivity.
Qed.

Lemma walk_step_turn (c : Z) :
  turn abi buf read_bytes c (fst (walk_step abi buf read_bytes c))
       (snd (walk_step abi buf read_bytes c)).
Proof.
  destruct (Z.lt_ge_cases c read_bytes) as [Hc | Hc].
  - destruct (hdr_at abi buf c) as [h|] eqn:Hh.
    + rewrite (walk_step_body c h Hc Hh). now apply turn_body.
    + unfold walk_step. rewrite (proj2 (Z.ltb_lt _ _) Hc).
      unfold hdr_at in Hh.
      destruct (load_field abi buf c F_hdrlen) as [x|] eqn:E1; simpl.
      * destruct (load_field abi buf c F_caplen) as [y|] eqn:E2;
          [discriminate |].
        simpl. apply turn_fault; trivial.
        { unfold hdr_at. now rewrite E1, E2. }
        intros e [<- | [<- | []]]; eauto.
      * apply turn_fault; trivial.
        { unfold hdr_at. now rewrite E1. }
        intros e [<- | []]; eauto.
  - rewrite (walk_step_exit c Hc). now apply turn_exit.
Qed.

Lemma turn_guarded (c : Z) (evs : list event) (st : walk_status) :
  turn abi buf read_bytes c evs st -> Forall (guarded abi buf read_bytes) evs.
Proof.
  intros [h Hc Hh | Hc | evs' Hc Hh Hev].
  - unfold body_events. repeat constructor; simpl; trivial.
    exists c, h. auto.
  - constructor.
  - apply Forall_forall. intros e He.
    destruct (Hev e He) as [f ->]. exact Hc.
Qed.

Lemma walk_unfold (fuel : nat) (c : Z) :
  walk abi buf read_bytes (S fuel) c
  = match snd (walk_step abi buf read_bytes c) with
    | Advance c' =>
      (fst (walk_step abi buf read_bytes c)
         ++ fst (walk abi buf read_bytes fuel c'),
       snd (walk abi buf read_bytes fuel c'))
    | Exit => (fst (walk_step abi buf read_bytes c), Finished c)
    | Fault => (fst (walk_step abi buf read_bytes c), Faulted c)
    end.
Proof.
  simpl. destruct (walk_step abi buf read_bytes c) as [evs [c' | |]]; simpl;
    trivial.
  destruct (walk abi buf read_bytes fuel c'); reflexivity.
Qed.

Lemma walk_guarded (fuel : nat) :
  forall c, Forall (guarded abi buf read_bytes)
                   (fst (walk abi buf read_bytes fuel c)).
Proof.
  induction fuel as [| fuel IH]; intros c.
  - constructor.
  - rewrite walk_unfold.
    pose proof (turn_guarded _ _ _ (walk_step_turn c)) as G.
    destruct (snd (walk_step abi buf read_bytes c)) as [c' | |]; simpl;
      trivial.
    apply Forall_app. split; [exact G | apply IH].
Qed.


(** A record that does not move the cursor keeps the walk in the loop. *)
Lemma walk_stuck (c : Z) (h : bpf_hdr) :
  c < read_bytes -> hdr_at abi buf c = Some h -> advance abi h = 0 ->
  forall fuel, snd (walk abi buf read_bytes fuel c) = Unfinished c.
Proof.
  intros Hc Hh H0 fuel. induction fuel as [| fuel IH].
  - reflexivity.
  - rewrite walk_unfold, (walk_step_body c h Hc Hh). simpl.
    rewrite H0, Z.add_0_r. exact IH.
Qed.

Lemma record_length_nonneg (h : bpf_hdr) : 0 <= record_length h.
Proof. unfold record_length. apply Z.mod_pos_bound. lia. Qed.

Hypothesis alignment_pos : 0 < BPF_ALIGNMENT abi.

Lemma advance_nonneg (h : bpf_hdr) : 0 <= advance abi h.
Proof.
  apply BPF_WORDALIGN_nonneg; [assumption | apply record_length_nonneg].
Qed.

Lemma advance_empty (h : bpf_hdr) :
  bh_hdrlen h = 0 -> bh_caplen h = 0 -> advance abi h = 0.
Proof.
  intros E1 E2. unfold advance, record_length. rewrite E1, E2.
  change ((0 + 0) mod 2 ^ 32) with 0.
  unfold BPF_WORDALIGN. rewrite Z.div_small by lia. reflexivity.
Qed.

(** If the walk leaves the loop, every record it parsed moved the
    cursor. *)
Lemma walk_finished_advances (fuel : nat) :
  forall c0 cf,
    snd (walk abi buf read_bytes fuel c0) = Finished cf ->
    forall c f, In (Fetch c f) (fst (walk abi buf read_bytes fuel c0)) ->
    exists h, hdr_at abi buf c = Some h /\ 0 < advance abi h.
Proof.
  induction fuel as [| fuel IH]; intros c0 cf.
  - discriminate.
  - rewrite walk_unfold.
    pose proof (walk_step_turn c0) as T.
    destruct (snd (walk_step abi buf read_bytes c0)) as [c' | |] eqn:E;
      simpl; [| | discriminate].
    + intros Hfin c f Hin. apply in_app_or in Hin as [Hin | Hin].
      * inversion T as [h Hc Hh Hev Hst | |]; subst.
        rewrite <- Hev in Hin.
        assert (c = c0) as ->.
        { unfold body_events in Hin. simpl in Hin.
          repeat (destruct Hin as [Hin | Hin];
                  [inversion Hin; reflexivity |]); contradiction. }
        exists h. split; [assumption |].
        destruct (Z.eq_dec (advance abi h) 0) as [H0 | Hn].
        -- rewrite H0, Z.add_0_r in Hfin.
           rewrite (walk_stuck c0 h Hc Hh H0 fuel) in Hfin. discriminate.
        -- pose proof (advance_nonneg h). lia.
      * eapply IH; eassumption.
    + intros _ c f Hin. inversion T as [| Hc Hev |]; subst.
      rewrite <- Hev in Hin. contradiction.
Qed.

(** Conversely: when every offset below [read_bytes] holds a header that
    moves the cursor, the walk leaves the loop within [read_bytes - c]
    turns and one more test. *)
Lemma walk_terminates_if_records_advance :
  (forall c, 0 <= c < read_bytes ->
             exists h, hdr_at abi buf c = Some h /\ 0 < advance abi h) ->
  forall (k : nat) (c : Z),
    0 <= c -> read_bytes - c <= Z.of_nat k ->
    exists cf, snd (walk abi buf read_bytes (S k) c) = Finished cf.
Proof.
  intros Hall k. induction k as [| k IH]; intros c Hc Hk.
  - exists c. rewrite walk_unfold, walk_step_exit by lia. reflexivity.
  - destruct (Z.lt_ge_cases c read_bytes) as [Hlt | Hge].
    + destruct (Hall c (conj Hc Hlt)) as [h [Hh Hadv]].
      rewrite walk_unfold, (walk_step_body c h Hlt Hh). simpl.
      apply IH; lia.
    + exists c. rewrite walk_unfold, walk_step_exit by lia. reflexivity.
Qed.

End Walk.

(** C1. A read of exactly 96 bytes holds record A (header length 18,
    captured length 46, aligned total 64) and, right behind it, record B
    (header length 18, captured length 10, aligned total 32).  The walk
    calls the frame sink exactly twice, with payload offsets 18 and 82 and
    captured lengths 46 and 10, and leaves its loop with the cursor at 96;
    three turns of fuel are enough. *)
Theorem walk_two_records (abi : bpf_abi) (buf : buffer) (fuel : nat) :
  hdr_at abi buf 0 = Some {| bh_caplen := 46; bh_hdrlen := 18 |} ->
  hdr_at abi buf 64 = Some {| bh_caplen := 10; bh_hdrlen := 18 |} ->
  BPF_WORDALIGN (BPF_ALIGNMENT abi) (18 + 46) = 64 ->
  BPF_WORDALIGN (BPF_ALIGNMENT abi) (18 + 10) = 32 ->
  (3 <= fuel)%nat ->
  sink_calls (fst (walk abi buf 96 fuel 0)) = [(18, 46); (82, 10)]
  /\ snd (walk abi buf 96 fuel 0) = Finished 96.
Proof.
  intros HA HB AA AB Hfuel.
  destruct fuel as [| [| [| fuel]]]; try lia.
  assert (advance abi {| bh_caplen := 46; bh_hdrlen := 18 |} = 64) as EA
      by exact AA.
  assert (advance abi {| bh_caplen := 10; bh_hdrlen := 18 |} = 32) as EB
      by exact AB.
  rewrite walk_unfold, (walk_step_body abi buf 96 0 _ ltac:(lia) HA).
  cbn [fst snd]. rewrite EA. change (0 + 64) with 64.
  rewrite walk_unfold, (walk_step_body abi buf 96 64 _ ltac:(lia) HB).
  cbn [fst snd]. rewrite EB. change (64 + 32) with 96.
  rewrite walk_unfold, (walk_step_exit abi buf 96 96 ltac:(lia)).
  cbn [fst snd]. split; reflexivity.
Qed.

Lemma walk_two_records_witness :
  sink_calls
    (fst (walk abi_align8 (after_read 4096 reply_two_records) 96 3 0))
  = [(18, 46); (82, 10)]
  /\ snd (walk abi_align8 (after_read 4096 reply_two_records) 96 3 0)
     = Finished 96.
Proof.
  apply (walk_two_records abi_align8 (after_read 4096 reply_two_records) 3).
  - vm_compute. reflexivity.
  - vm_compute. reflexivity.
  - reflexivity.
  - reflexivity.
  - lia.
Defined.





(** C9. For a positive alignment unit: if the walk of a read leaves its
    loop, every record it parsed has
    [wordAlign (headerLength + capturedLength) > 0]; a record whose header
    length and captured length are both 0 leaves the cursor where it is, and
    the walk is still in its loop after any number of turns; such an input
    exists: a read of one byte into the cleared buffer. *)
Theorem walk_terminates_only_if_records_advance (abi : bpf_abi) :
  0 < BPF_ALIGNMENT abi ->
  (forall buf n fuel cf,
      snd (walk abi buf n fuel 0) = Finished cf ->
      forall c f, In (Fetch c f) (fst (walk abi buf n fuel 0)) ->
      exists h, hdr_at abi buf c = Some h /\ 0 < advance abi h)
  /\ (forall buf n c h,
         c < n -> hdr_at abi buf c = Some h ->
         bh_hdrlen h = 0 -> bh_caplen h = 0 ->
         forall fuel, snd (walk abi buf n fuel c) = Unfinished c)
  /\ (0 < rr_ret reply_one_byte
      /\ hdr_at abi_darwin (after_read 4096 reply_one_byte) 0
         = Some {| bh_caplen := 0; bh_hdrlen := 0 |}
      /\ forall fuel,
           snd (walk abi_darwin (after_read 4096 reply_one_byte)
                     (rr_ret reply_one_byte) fuel 0) = Unfinished 0).
Proof.
  intros Hpos. split; [| split].
  - intros buf n fuel cf Hfin c f Hin.
    eapply walk_finished_advances; eassumption.
  - intros buf n c h Hc Hh E1 E2 fuel.
    apply (walk_stuck abi buf n c h Hc Hh).
    apply advance_empty; assumption.
  - assert (hdr_at abi_darwin (after_read 4096 reply_one_byte) 0
            = Some {| bh_caplen := 0; bh_hdrlen := 0 |}) as H0
        by (vm_compute; reflexivity).
    split; [reflexivity | split; [exact H0 |]].
    intros fuel.
    change (rr_ret reply_one_byte) with 1.
    apply (walk_stuck abi_darwin _ 1 0 _ ltac:(lia) H0 eq_refl).
Qed.

Lemma walk_terminates_only_if_records_advance_witness :
  0 < BPF_ALIGNMENT abi_darwin
  /\ snd (walk abi_darwin (after_read 4096 reply_one_byte) 1 1000 0)
     = Unfinished 0.
Proof.
  assert (0 < BPF_ALIGNMENT abi_darwin) as Hpos by reflexivity.
  split; [exact Hpos |].
  destruct (walk_terminates_only_if_records_advance abi_darwin Hpos)
    as [_ [H _]].
  apply (H (after_read 4096 reply_one_byte) 1 0
           {| bh_caplen := 0; bh_hdrlen := 0 |}).
  - lia.
  - vm_compute. reflexivity.
  - reflexivity.
  - reflexivity.
Defined.

(** ** The signal handler and the [running] flag *)

Lemma signalHandler_rearms (sig_num : Z) (p : process) :
  sigint_action (signalHandler sig_num p) = Installed.
Proof. unfold signalHandler. destruct (sig_num =? SIGINT); reflexivity. Qed.

Lemma signalHandler_ctl (sig_num : Z) (p : process) :
  ctl (signalHandler sig_num p) = ctl p.
Proof. unfold signalHandler. destruct (sig_num =? SIGINT); reflexivity. Qed.

Lemma signalHandler_SIGINT (p : process) :
  running (signalHandler SIGINT p) = false.
Proof. reflexivity. Qed.

Lemma deliver_SIGINT_handled (resets : bool) (p : process) :
  alive p = true -> sigint_action p = Installed ->
  deliver_SIGINT resets p
  = {| running := false; sigint_action := Installed; ctl := ctl p |}.
Proof.
  intros Ha Hi. unfold deliver_SIGINT. rewrite Ha, Hi.
  destruct resets; reflexivity.
Qed.

Lemma deliver_SIGINT_keeps_stopped (resets : bool) (p : process) :
  running p = false -> running (deliver_SIGINT resets p) = false.
Proof.
  intros Hr. unfold deliver_SIGINT.
  destruct (alive p); [| exact Hr].
  destruct (sigint_action p); [exact Hr | reflexivity].
Qed.

Lemma deliver_SIGINT_pending (resets : bool) (p : process) :
  (pending_reads (ctl (deliver_SIGINT resets p)) <= pending_reads (ctl p))%nat.
Proof.
  unfold deliver_SIGINT.
  destruct (alive p); [| lia].
  destruct (sigint_action p).
  - simpl. lia.
  - rewrite signalHandler_ctl. destruct resets; simpl; lia.
Qed.

(** C8. With the handler installed, every delivery of [SIGINT] sets
    [running] to false and leaves the handler installed, whether or not the
    system resets the disposition on delivery: after the first and after the
    second of two deliveries in a row, [running] is false and
    [signalHandler] is the action for [SIGINT]. *)
Theorem sigint_delivery_rearms (resets : bool) (p : process) :
  alive p = true -> sigint_action p = Installed ->
  (running (deliver_SIGINT resets p) = false
   /\ sigint_action (deliver_SIGINT resets p) = Installed)
  /\ (running (deliver_SIGINT resets (deliver_SIGINT resets p)) = false
      /\ sigint_action (deliver_SIGINT resets (deliver_SIGINT resets p))
         = Installed)
  /\ ctl (deliver_SIGINT resets (deliver_SIGINT resets p)) = ctl p.
Proof.
  intros Ha Hi.
  rewrite (deliver_SIGINT_handled resets p Ha Hi).
  rewrite deliver_SIGINT_handled; [| exact Ha | reflexivity].
  repeat split.
Qed.

Lemma sigint_delivery_rearms_witness :
  (running (deliver_SIGINT true main_prologue) = false
   /\ sigint_action (deliver_SIGINT true main_prologue) = Installed)
  /\ (running (deliver_SIGINT true (deliver_SIGINT true main_prologue)) = false
      /\ sigint_action (deliver_SIGINT true (deliver_SIGINT true main_prologue))
         = Installed)
  /\ ctl (deliver_SIGINT true (deliver_SIGINT true main_prologue))
     = ctl main_prologue.
Proof. apply (sigint_delivery_rearms true main_prologue); reflexivity. Defined.

Lemma sniff_step_running (abi : bpf_abi) (size : Z) (k : read_reply)
  (p : process) :
  running (snd (sniff_step abi size k p)) = running p.
Proof.
  unfold sniff_step. destruct p as [r sa [| | buf n c | | |]]; simpl; trivial.
  - destruct r; reflexivity.
  - destruct (0 <? rr_ret k); reflexivity.
  - destruct (walk_step abi buf n c) as [evs [c' | |]]; reflexivity.
Qed.

Lemma sniff_step_sigint_action (abi : bpf_abi) (size : Z) (k : read_reply)
  (p : process) :
  sigint_action (snd (sniff_step abi size k p)) = sigint_action p.
Proof.
  unfold sniff_step. destruct p as [r sa [| | buf n c | | |]]; simpl; trivial.
  - destruct r; reflexivity.
  - destruct (0 <? rr_ret k); reflexivity.
  - destruct (walk_step abi buf n c) as [evs [c' | |]]; reflexivity.
Qed.

(** C10. Called with a signal number other than [SIGINT], the handler
    leaves [running] as it is and still registers itself for [SIGINT];
    [running] goes from true to false in the handler only when the number
    is [SIGINT], and no step of [sniff] writes it. *)
Theorem signalHandler_other_signal (sig_num : Z) (p : process) :
  sig_num <> SIGINT ->
  running (signalHandler sig_num p) = running p
  /\ sigint_action (signalHandler sig_num p) = Installed
  /\ (forall s q, running q = true -> running (signalHandler s q) = false ->
                  s = SIGINT)
  /\ (forall abi size k q,
         running (snd (sniff_step abi size k q)) = running q).
Proof.
  intros Hne. split; [| split; [| split]].
  - unfold signalHandler.
    destruct (Z.eqb_spec sig_num SIGINT); [contradiction | reflexivity].
  - apply signalHandler_rearms.
  - intros s q Hq. unfold signalHandler.
    destruct (Z.eqb_spec s SIGINT) as [E | E]; [trivial |].
    simpl. congruence.
  - intros. apply sniff_step_running.
Qed.

Lemma signalHandler_other_signal_witness :
  running (signalHandler 15 process_start) = true
  /\ sigint_action (signalHandler 15 process_start) = Installed.
Proof.
  destruct (signalHandler_other_signal 15 process_start) as [H1 [H2 _]].
  - unfold SIGINT. lia.
  - split; [exact H1 | exact H2].
Defined.

(** ** The capture loop *)

Section Sniff.

Variable abi : bpf_abi.
Variable bpf_buff_size : Z.
Variable resets : bool.

Lemma walk_step_no_read (buf : buffer) (n c : Z) :
  read_calls (fst (walk_step abi buf n c)) = [].
Proof.
  pose proof (turn_guarded abi buf n c _ _ (walk_step_turn abi buf n c)) as G.
  induction G as [| e evs He _ IH]; [reflexivity |].
  unfold read_calls in *. simpl.
  destruct e; simpl in *; trivial. contradiction.
Qed.

(** With [running] false, a step or a delivery keeps it false and makes
    no [read] but the one the process had already committed to. *)
Lemma act_stopped (a : action) (p : process) :
  running p = false ->
  running (snd (act abi bpf_buff_size resets a p)) = false
  /\ (length (read_calls (fst (act abi bpf_buff_size resets a p)))
      + pending_reads (ctl (snd (act abi bpf_buff_size resets a p)))
      <= pending_reads (ctl p))%nat.
Proof.
  intros Hr. destruct a as [k |]; simpl.
  - split; [rewrite sniff_step_running; exact Hr |].
    unfold sniff_step. destruct p as [r sa [| | buf n c | | |]];
      simpl in *; try lia.
    + rewrite Hr. simpl. lia.
    + destruct (0 <? rr_ret k); simpl; lia.
    + pose proof (walk_step_no_read buf n c) as NR.
      destruct (walk_step abi buf n c) as [evs [c' | |]]; simpl in *;
        rewrite NR; simpl; lia.
  - split; [apply deliver_SIGINT_keeps_stopped; exact Hr |].
    pose proof (deliver_SIGINT_pending resets p). lia.
Qed.

Lemma run_cons (a : action) (rest : list action) (p : process) :
  run abi bpf_buff_size resets (a :: rest) p
  = (fst (act abi bpf_buff_size resets a p)
       ++ fst (run abi bpf_buff_size resets rest
                   (snd (act abi bpf_buff_size resets a p))),
     snd (run abi bpf_buff_size resets rest
              (snd (act abi bpf_buff_size resets a p)))).
Proof.
  simpl. destruct (act abi bpf_buff_size resets a p) as [evs p']. simpl.
  destruct (run abi bpf_buff_size resets rest p'). reflexivity.
Qed.

Lemma run_stopped (acts : list action) :
  forall p,
    running p = false ->
    running (snd (run abi bpf_buff_size resets acts p)) = false
    /\ (length (read_calls (fst (run abi bpf_buff_size resets acts p)))
        <= pending_reads (ctl p))%nat.
Proof.
  induction acts as [| a rest IH]; intros p Hr.
  - simpl. split; [exact Hr | lia].
  - rewrite run_cons. cbn [fst snd].
    destruct (act_stopped a p Hr) as [Hr' Hle].
    destruct (IH _ Hr') as [Hr'' Hle'].
    split; [exact Hr'' |].
    unfold read_calls in *. rewrite filter_app, length_app. lia.
Qed.

(** The inner loop of [sniff] is the walk: as long as the walk is not
    through, [fuel] steps of the process are its first [fuel] turns. *)
Lemma run_walk (buf : buffer) (n : Z) (k : read_reply) (fuel : nat) :
  forall (c c' : Z) (p : process),
    ctl p = Walking buf n c ->
    snd (walk abi buf n fuel c) = Unfinished c' ->
    run abi bpf_buff_size resets (repeat (Step k) fuel) p
    = (fst (walk abi buf n fuel c), set_ctl (Walking buf n c') p).
Proof.
  induction fuel as [| fuel IH]; intros c c' p Hc Hw.
  - simpl in *. inversion Hw; subst. rewrite <- Hc.
    destruct p; reflexivity.
  - rewrite walk_unfold in Hw |- *.
    change (repeat (Step k) (S fuel)) with (Step k :: repeat (Step k) fuel).
    rewrite run_cons. cbn [act]. unfold sniff_step. rewrite Hc.
    destruct (walk_step abi buf n c) as [evs [c1 | |]]; cbn [fst snd] in *;
      try discriminate.
    rewrite (IH c1 c' (set_ctl (Walking buf n c1) p) eq_refl Hw).
    reflexivity.
Qed.

End Sniff.

(** The buffer [sniff] walks has the size it was allocated with. *)
Lemma after_read_length (bpf_buff_size : Z) (k : read_reply) :
  length (after_read bpf_buff_size k) = Z.to_nat bpf_buff_size.
Proof.
  unfold after_read, zeroed.
  rewrite length_app, length_skipn, repeat_length, length_firstn.
  lia.
Qed.

(** A whole iteration on the read of the two records of C1, from the loop
    test back to the loop test. *)
Lemma sniff_iteration_two_records :
  run abi_align8 4096 false
      (repeat (Step reply_two_records) 5) main_prologue
  = ([Read 96] ++ body_events 0 {| bh_caplen := 46; bh_hdrlen := 18 |}
               ++ body_events 64 {| bh_caplen := 10; bh_hdrlen := 18 |},
     main_prologue).
Proof. vm_compute. reflexivity. Qed.

(** C7. When the [read] of an iteration returns 0 or a negative value, the
    iteration ends there: the frame sink is not called, [sniff] does not
    return but is back at the loop test, and with [running] still true the
    next step starts another iteration. *)
Theorem sniff_nonpositive_read (abi : bpf_abi) (bpf_buff_size : Z)
  (k : read_reply) (p : process) :
  ctl p = Reading -> rr_ret k <= 0 ->
  sniff_step abi bpf_buff_size k p = ([Read (rr_ret k)], set_ctl LoopHead p)
  /\ sink_calls (fst (sniff_step abi bpf_buff_size k p)) = []
  /\ ctl (snd (sniff_step abi bpf_buff_size k p)) <> Returned
  /\ (running p = true ->
      forall k',
        sniff_step abi bpf_buff_size k' (snd (sniff_step abi bpf_buff_size k p))
        = ([], set_ctl Reading p)).
Proof.
  intros Hc Hn.
  assert (sniff_step abi bpf_buff_size k p
          = ([Read (rr_ret k)], set_ctl LoopHead p)) as E.
  { unfold sniff_step. rewrite Hc.
    destruct (Z.ltb_spec 0 (rr_ret k)); [lia | reflexivity]. }
  rewrite E. cbn [fst snd]. repeat split.
  - simpl. discriminate.
  - intros Hr k'. unfold sniff_step. simpl. rewrite Hr. reflexivity.
Qed.

Lemma sniff_nonpositive_read_witness :
  sniff_step abi_darwin 4096 {| rr_ret := -1; rr_data := [] |}
             (set_ctl Reading main_prologue)
  = ([Read (-1)], set_ctl LoopHead (set_ctl Reading main_prologue)).
Proof.
  apply (sniff_nonpositive_read abi_darwin 4096
           {| rr_ret := -1; rr_data := [] |} (set_ctl Reading main_prologue)).
  - reflexivity.
  - simpl. lia.
Defined.

(** ** Device probing *)

Section Probing.

Variable K : kernel.

(** One turn of the [for] loop, by the answer of [open]. *)
Lemma open_loop_busy (todo : nat) (i e : Z) (bpf : option Z) (s : os) :
  k_open K i = SysErr e -> e <> EACCES ->
  open_loop K (S todo) i bpf s
  = open_loop K todo (i + 1) (Some (-1))
              {| errno := e; calls := calls s ++ [Open i] |}.
Proof.
  intros Ho He. simpl. unfold bind, sys_open, sys, get_errno.
  rewrite Ho. simpl.
  destruct (Z.eqb_spec e EACCES); [contradiction | reflexivity].
Qed.

Lemma open_loop_denied (todo : nat) (i : Z) (bpf : option Z) (s : os) :
  k_open K i = SysErr EACCES ->
  open_loop K (S todo) i bpf s
  = (Fatal PermissionDenied,
     {| errno := EACCES; calls := calls s ++ [Open i] |}).
Proof.
  intros Ho. simpl. unfold bind, sys_open, sys, get_errno.
  rewrite Ho. reflexivity.
Qed.

Lemma open_loop_opened (todo : nat) (i : Z) (fd : N) (bpf : option Z)
  (s : os) :
  k_open K i = SysOk fd ->
  open_loop K (S todo) i bpf s
  = (Value (Some (Z.of_N fd)),
     {| errno := errno s; calls := calls s ++ [Open i] |}).
Proof.
  intros Ho. simpl. unfold bind, sys_open, sys.
  rewrite Ho. simpl.
  destruct (Z.eqb_spec (Z.of_N fd) (-1)); [lia | reflexivity].
Qed.

(** [k] busy devices in front of a turn are tried one after the other
    and then that turn is taken. *)
Lemma open_loop_skips_busy (k : nat) :
  forall (todo : nat) (i : Z) (bpf : option Z) (s : os),
    (forall j, i <= j < i + Z.of_nat k -> busy K j) ->
    exists bpf' e',
      open_loop K (k + S todo) i bpf s
      = open_loop K (S todo) (i + Z.of_nat k) bpf'
                  {| errno := e';
                     calls := calls s ++ map Open (indices i k) |}.
Proof.
  induction k as [| k IH]; intros todo i bpf s Hbusy.
  - exists bpf, (errno s). simpl. rewrite app_nil_r, Z.add_0_r.
    destruct s; reflexivity.
  - destruct (Hbusy i ltac:(lia)) as [e [Ho He]].
    change (S k + S todo)%nat with (S (k + S todo)).
    rewrite (open_loop_busy _ i e bpf s Ho He).
    destruct (IH todo (i + 1) (Some (-1))
                 {| errno := e; calls := calls s ++ [Open i] |})
      as [bpf' [e' E]].
    { intros j Hj. apply Hbusy. lia. }
    exists bpf', e'. rewrite E. simpl.
    rewrite <- app_assoc. simpl.
    replace (i + 1 + Z.of_nat k) with (i + Z.pos (Pos.of_succ_nat k)) by lia.
    reflexivity.
Qed.

(** When every remaining device is busy the loop runs out with
    [bpf = -1] and the [errno] of the last [open]. *)
Lemma open_loop_all_busy (n : nat) :
  forall (i : Z) (bpf : option Z) (s : os),
    (forall j, i <= j < i + Z.of_nat (S n) -> busy K j) ->
    exists e,
      k_open K (i + Z.of_nat n) = SysErr e
      /\ open_loop K (S n) i bpf s
         = (Value (Some (-1)),
            {| errno := e;
               calls := calls s ++ map Open (indices i (S n)) |}).
Proof.
  induction n as [| n IH]; intros i bpf s Hbusy.
  - destruct (Hbusy i ltac:(lia)) as [e [Ho He]].
    exists e. rewrite Z.add_0_r. split; [exact Ho |].
    rewrite (open_loop_busy _ i e bpf s Ho He). reflexivity.
  - destruct (Hbusy i ltac:(lia)) as [e [Ho He]].
    rewrite (open_loop_busy _ i e bpf s Ho He).
    destruct (IH (i + 1) (Some (-1))
                 {| errno := e; calls := calls s ++ [Open i] |})
      as [e' [Ho' E]].
    { intros j Hj. apply Hbusy. lia. }
    exists e'. split.
    + replace (i + Z.of_nat (S n)) with (i + 1 + Z.of_nat n) by lia.
      exact Ho'.
    + rewrite E. cbn [calls]. rewrite <- app_assoc. reflexivity.
Qed.

Lemma opened_indices_app (cs cs' : list syscall) :
  opened_indices (cs ++ cs') = opened_indices cs ++ opened_indices cs'.
Proof. unfold opened_indices. apply flat_map_app. Qed.

Lemma opened_indices_opens (l : list Z) : opened_indices (map Open l) = l.
Proof.
  induction l as [| i l IH]; [reflexivity |].
  simpl. f_equal. exact IH.
Qed.

End Probing.

Lemma indices_snoc (n : nat) :
  forall i, indices i (S n) = indices i n ++ [i + Z.of_nat n].
Proof.
  induction n as [| n IH]; intros i.
  - simpl. now rewrite Z.add_0_r.
  - change (indices i (S (S n))) with (i :: indices (i + 1) (S n)).
    rewrite IH.
    replace (i + 1 + Z.of_nat n) with (i + Z.of_nat (S n)) by lia.
    reflexivity.
Qed.

Lemma calls_snoc (cs : list syscall) (k : nat) :
  (cs ++ map Open (indices 0 k)) ++ [Open (Z.of_nat k)]
  = cs ++ map Open (indices 0 (S k)).
Proof.
  rewrite indices_snoc, map_app, <- app_assoc. reflexivity.
Qed.

(** C4. When an attempt of the probing loop, the one at index [k], fails
    with [EACCES], [initializeDevice] ends at once with the permission
    failure: the system calls it has made are the [open]s of indices
    [0..k], in order, and nothing after them. *)
Theorem initializeDevice_permission_denied (K : kernel)
  (MAX_BPF_DEVICES : nat) (interface_name : list OCTET) (s : os) (k : nat) :
  (k < MAX_BPF_DEVICES)%nat ->
  (forall j, 0 <= j < Z.of_nat k -> busy K j) ->
  k_open K (Z.of_nat k) = SysErr EACCES ->
  initializeDevice K MAX_BPF_DEVICES interface_name s
  = (Fatal PermissionDenied,
     {| errno := EACCES;
        calls := calls s ++ map Open (indices 0 (S k)) |}).
Proof.
  intros Hk Hbusy Hden.
  replace MAX_BPF_DEVICES with (k + S (MAX_BPF_DEVICES - S k))%nat by lia.
  destruct (open_loop_skips_busy K k (MAX_BPF_DEVICES - S k) 0 None s Hbusy)
    as [bpf' [e' E]].
  unfold initializeDevice, open_device. unfold bind at 1 2.
  rewrite E, open_loop_denied by exact Hden.
  cbn [calls]. rewrite calls_snoc. reflexivity.
Qed.

Lemma initializeDevice_permission_denied_witness :
  initializeDevice (kernel_of [SysErr EACCES; SysOk 3]) 4 en0 (os_start 0)
  = (Fatal PermissionDenied, {| errno := EACCES; calls := [Open 0] |}).
Proof.
  apply (initializeDevice_permission_denied
           (kernel_of [SysErr EACCES; SysOk 3]) 4 en0 (os_start 0) 0).
  - lia.
  - intros j Hj. simpl in Hj. lia.
  - reflexivity.
Defined.

(** C5, with the permission case set apart.  The loop tries the indices in
    ascending order and stops at the first [open] that succeeds: when index
    [k] succeeds and every index before it fails for a reason other than
    [EACCES], the device of index [k] is the one opened and configured,
    after the [open]s of exactly [0..k] in order; when every index
    [0..MAX_BPF_DEVICES-1] fails for a reason other than [EACCES] (and
    there is at least one), the function ends with [DeviceUnavailable]
    carrying the [errno] of the last attempt, after the [open]s of all the
    indices in order. *)
Theorem open_device_first_success (K : kernel) (MAX_BPF_DEVICES : nat)
  (interface_name : list OCTET) (s : os) :
  (forall (k : nat) (fd : N),
      (k < MAX_BPF_DEVICES)%nat ->
      (forall j, 0 <= j < Z.of_nat k -> busy K j) ->
      k_open K (Z.of_nat k) = SysOk fd ->
      exists e,
        open_device K MAX_BPF_DEVICES s
        = (Value (Z.of_N fd),
           {| errno := e; calls := calls s ++ map Open (indices 0 (S k)) |})
        /\ initializeDevice K MAX_BPF_DEVICES interface_name s
           = configure_device K interface_name (Z.of_N fd)
               {| errno := e;
                  calls := calls s ++ map Open (indices 0 (S k)) |})
  /\ ((0 < MAX_BPF_DEVICES)%nat ->
      (forall j, 0 <= j < Z.of_nat MAX_BPF_DEVICES -> busy K j) ->
      exists e,
        k_open K (Z.of_nat MAX_BPF_DEVICES - 1) = SysErr e
        /\ initializeDevice K MAX_BPF_DEVICES interface_name s
           = (Fatal (DeviceUnavailable e),
              {| errno := e;
                 calls := calls s ++ map Open (indices 0 MAX_BPF_DEVICES) |})).
Proof.
  split.
  - intros k fd Hk Hbusy Hok.
    destruct (open_loop_skips_busy K k (MAX_BPF_DEVICES - S k) 0 None s Hbusy)
      as [bpf' [e' E]].
    exists e'.
    assert (open_device K MAX_BPF_DEVICES s
            = (Value (Z.of_N fd),
               {| errno := e';
                  calls := calls s ++ map Open (indices 0 (S k)) |})) as D.
    { replace MAX_BPF_DEVICES with (k + S (MAX_BPF_DEVICES - S k))%nat
        at 1 by lia.
      unfold open_device. unfold bind at 1.
      rewrite E, (open_loop_opened K _ _ fd) by exact Hok.
      cbn [calls errno]. rewrite calls_snoc.
      destruct (Z.eqb_spec (Z.of_N fd) (-1)); [lia | reflexivity]. }
    split; [exact D |].
    unfold initializeDevice. unfold bind at 1. rewrite D. reflexivity.
  - intros Hpos Hbusy.
    destruct MAX_BPF_DEVICES as [| n]; [lia |].
    destruct (open_loop_all_busy K n 0 None s Hbusy) as [e [Ho E]].
    exists e. split.
    + replace (Z.of_nat (S n) - 1) with (0 + Z.of_nat n) by lia. exact Ho.
    + unfold initializeDevice, open_device. unfold bind at 1 2.
      rewrite E. reflexivity.
Qed.

Lemma open_device_first_success_witness :
  exists e,
    open_device (kernel_of [SysErr EBUSY; SysErr ENOENT; SysOk 3]) 4
                (os_start 0)
    = (Value 3, {| errno := e; calls := [Open 0; Open 1; Open 2] |}).
Proof.
  destruct (open_device_first_success
              (kernel_of [SysErr EBUSY; SysErr ENOENT; SysOk 3]) 4 en0
              (os_start 0)) as [H _].
  destruct (H 2%nat 3%N) as [e [E _]].
  - lia.
  - intros j Hj.
    assert (j = 0 \/ j = 1) as [-> | ->] by lia.
    + exists EBUSY. split; [reflexivity | discriminate].
    + exists ENOENT. split; [reflexivity | discriminate].
  - reflexivity.
  - exists e. exact E.
Defined.

(** C5 as stated fails when an index before the one that succeeds is
    refused for want of permission: with [/dev/bpf0] answering [EACCES] and
    [/dev/bpf1] ready, index 1 is the only one that succeeds, yet it is
    never tried and the function ends with the permission failure. *)
Lemma open_device_permission_counterexample :
  let K := kernel_of [SysErr EACCES; SysOk 3] in
  (k_open K 1 = SysOk 3 /\ forall j, j <> 1 -> exists e, k_open K j = SysErr e)
  /\ fst (initializeDevice K 2 en0 (os_start 0)) = Fatal PermissionDenied
  /\ opened_indices (calls (snd (initializeDevice K 2 en0 (os_start 0))))
     = [0].
Proof.
  cbv zeta. split; [split | split]; try reflexivity.
  intros j Hj. unfold kernel_of. cbn [k_open].
  destruct (Z.ltb_spec j 0); [eauto |].
  destruct (Z.to_nat j) as [| [| n]] eqn:E.
  - simpl. eauto.
  - lia.
  - destruct n; simpl; eauto.
Qed.

(** With the name fitting [ifr_name] and the three [ioctl]s answered, the
    device found by the loop is what the function hands back. *)
Lemma initializeDevice_third_device :
  initializeDevice (kernel_of [SysErr EBUSY; SysErr ENOENT; SysOk 3]) 4 en0
                   (os_start 0)
  = (Value (3, 4096),
     {| errno := ENOENT;
        calls := [Open 0; Open 1; Open 2; Ioctl 3 (BIOCSETIF en0);
                  Ioctl 3 (BIOCIMMEDIATE 1); Ioctl 3 BIOCGBLEN] |}).
Proof. reflexivity. Qed.

(** * Beyond the claims *)

(** ** [initializeDevice] as a whole *)

Section Initialize.

Variable K : kernel.

(** Below any bound, either every device is busy or there is a first one
    that is not: it opens, or it is refused for want of permission. *)
Lemma first_not_busy (n : nat) :
  (forall j, 0 <= j < Z.of_nat n -> busy K j)
  \/ (exists k, (k < n)%nat
                /\ (forall j, 0 <= j < Z.of_nat k -> busy K j)
                /\ (k_open K (Z.of_nat k) = SysErr EACCES
                    \/ exists fd, k_open K (Z.of_nat k) = SysOk fd)).
Proof.
  induction n as [| n [IH | [k [Hk [Hb Hc]]]]].
  - left. intros j Hj. simpl in Hj. lia.
  - destruct (k_open K (Z.of_nat n)) as [fd | e] eqn:E.
    + right. exists n. split; [lia |]. split; [exact IH |]. right. eauto.
    + destruct (Z.eq_dec e EACCES) as [-> | Hne].
      * right. exists n. split; [lia |]. split; [exact IH |]. now left.
      * left. intros j Hj.
        destruct (Z.eq_dec j (Z.of_nat n)) as [-> | Hjn].
        -- exists e. split; assumption.
        -- apply IH. lia.
  - right. exists k. split; [lia |]. split; assumption.
Qed.

Variable MAX_BPF_DEVICES : nat.

Lemma open_device_no_devices (s : os) :
  MAX_BPF_DEVICES = 0%nat -> open_device K MAX_BPF_DEVICES s = (Undefined, s).
Proof. intros ->. reflexivity. Qed.

Lemma open_device_opened (s : os) (k : nat) (fd : N) :
  (k < MAX_BPF_DEVICES)%nat -> first_open K k fd ->
  exists e,
    open_device K MAX_BPF_DEVICES s
    = (Value (Z.of_N fd),
       {| errno := e; calls := calls s ++ map Open (indices 0 (S k)) |}).
Proof.
  intros Hk [Hbusy Hok].
  destruct (open_loop_skips_busy K k (MAX_BPF_DEVICES - S k) 0 None s Hbusy)
    as [bpf' [e' E]].
  exists e'.
  replace MAX_BPF_DEVICES with (k + S (MAX_BPF_DEVICES - S k))%nat by lia.
  unfold open_device. unfold bind at 1.
  rewrite E, (open_loop_opened K _ _ fd) by exact Hok.
  cbn [calls errno]. rewrite calls_snoc.
  destruct (Z.eqb_spec (Z.of_N fd) (-1)); [lia | reflexivity].
Qed.

Lemma open_device_denied (s : os) (k : nat) :
  (k < MAX_BPF_DEVICES)%nat ->
  (forall j, 0 <= j < Z.of_nat k -> busy K j) ->
  k_open K (Z.of_nat k) = SysErr EACCES ->
  open_device K MAX_BPF_DEVICES s
  = (Fatal PermissionDenied,
     {| errno := EACCES; calls := calls s ++ map Open (indices 0 (S k)) |}).
Proof.
  intros Hk Hbusy Hden.
  destruct (open_loop_skips_busy K k (MAX_BPF_DEVICES - S k) 0 None s Hbusy)
    as [bpf' [e' E]].
  replace MAX_BPF_DEVICES with (k + S (MAX_BPF_DEVICES - S k))%nat by lia.
  unfold open_device. unfold bind at 1.
  rewrite E, open_loop_denied by exact Hden.
  cbn [calls]. rewrite calls_snoc. reflexivity.
Qed.

Lemma open_device_exhausted (s : os) :
  (0 < MAX_BPF_DEVICES)%nat ->
  (forall j, 0 <= j < Z.of_nat MAX_BPF_DEVICES -> busy K j) ->
  exists e,
    k_open K (Z.of_nat MAX_BPF_DEVICES - 1) = SysErr e
    /\ open_device K MAX_BPF_DEVICES s
       = (Fatal (DeviceUnavailable e),
          {| errno := e;
             calls := calls s ++ map Open (indices 0 MAX_BPF_DEVICES) |}).
Proof.
  intros Hpos Hbusy.
  destruct MAX_BPF_DEVICES as [| n]; [lia |].
  destruct (open_loop_all_busy K n 0 None s Hbusy) as [e [Ho E]].
  exists e. split.
  - replace (Z.of_nat (S n) - 1) with (0 + Z.of_nat n) by lia. exact Ho.
  - unfold open_device. unfold bind at 1. rewrite E. reflexivity.
Qed.

Variable interface_name : list OCTET.

(** The three [ioctl]s, by the answers of the kernel. *)
Lemma configure_device_run (d : Z) (s : os) :
  configure_device K interface_name d s
  = match k_ioctl K d (BIOCSETIF interface_name) with
    | SysErr e =>
      (Fatal (InterfaceBindFailed e),
       {| errno := e;
          calls := calls s ++ firstn 1 (configuration_calls interface_name d) |})
    | SysOk _ =>
      match k_ioctl K d (BIOCIMMEDIATE 1) with
      | SysErr e =>
        (Fatal (ConfigurationFailed e),
         {| errno := e;
            calls := calls s
                     ++ firstn 2 (configuration_calls interface_name d) |})
      | SysOk _ =>
        match k_ioctl K d BIOCGBLEN with
        | SysErr e =>
          (Fatal (ConfigurationFailed e),
           {| errno := e;
              calls := calls s ++ configuration_calls interface_name d |})
        | SysOk blen =>
          (Value (d, as_int (Z.of_N blen)),
           {| errno := errno s;
              calls := calls s ++ configuration_calls interface_name d |})
        end
      end
    end.
Proof.
  unfold configure_device, bind, sys_ioctl, sys, get_errno, fatal, ret,
    ioctl_out, configuration_calls.
  destruct (k_ioctl K d (BIOCSETIF interface_name)); cbn;
    [| reflexivity].
  destruct (k_ioctl K d (BIOCIMMEDIATE 1)); cbn;
    [| rewrite <- app_assoc; reflexivity].
  destruct (k_ioctl K d BIOCGBLEN); cbn;
    rewrite <- !app_assoc; reflexivity.
Qed.

Lemma initializeDevice_after_open (s s1 : os) (d : Z) :
  open_device K MAX_BPF_DEVICES s = (Value d, s1) ->
  initializeDevice K MAX_BPF_DEVICES interface_name s
  = configure_device K interface_name d s1.
Proof.
  intros E. unfold initializeDevice. unfold bind at 1. rewrite E. reflexivity.
Qed.

Lemma initializeDevice_open_fatal (s s1 : os) (e : fatal_error) :
  open_device K MAX_BPF_DEVICES s = (Fatal e, s1) ->
  initializeDevice K MAX_BPF_DEVICES interface_name s = (Fatal e, s1).
Proof.
  intros E. unfold initializeDevice. unfold bind at 1. rewrite E. reflexivity.
Qed.

Lemma initializeDevice_open_undefined (s s1 : os) :
  open_device K MAX_BPF_DEVICES s = (Undefined, s1) ->
  initializeDevice K MAX_BPF_DEVICES interface_name s = (Undefined, s1).
Proof.
  intros E. unfold initializeDevice. unfold bind at 1. rewrite E. reflexivity.
Qed.

(** Every run of [initializeDevice] is one of four: no device to try, all
    busy, a refusal, or a device opened and then configured. *)
Lemma initializeDevice_cases (s : os) :
  (MAX_BPF_DEVICES = 0%nat
   /\ initializeDevice K MAX_BPF_DEVICES interface_name s = (Undefined, s))
  \/ (exists e,
         (0 < MAX_BPF_DEVICES)%nat
         /\ (forall j, 0 <= j < Z.of_nat MAX_BPF_DEVICES -> busy K j)
         /\ k_open K (Z.of_nat MAX_BPF_DEVICES - 1) = SysErr e
         /\ initializeDevice K MAX_BPF_DEVICES interface_name s
            = (Fatal (DeviceUnavailable e),
               {| errno := e;
                  calls := calls s ++ map Open (indices 0 MAX_BPF_DEVICES) |}))
  \/ (exists k,
         (k < MAX_BPF_DEVICES)%nat
         /\ (forall j, 0 <= j < Z.of_nat k -> busy K j)
         /\ k_open K (Z.of_nat k) = SysErr EACCES
         /\ initializeDevice K MAX_BPF_DEVICES interface_name s
            = (Fatal PermissionDenied,
               {| errno := EACCES;
                  calls := calls s ++ map Open (indices 0 (S k)) |}))
  \/ (exists k fd e,
         (k < MAX_BPF_DEVICES)%nat
         /\ first_open K k fd
         /\ initializeDevice K MAX_BPF_DEVICES interface_name s
            = configure_device K interface_name (Z.of_N fd)
                {| errno := e;
                   calls := calls s ++ map Open (indices 0 (S k)) |}).
Proof.
  destruct MAX_BPF_DEVICES as [| n] eqn:EM.
  - left. split; [reflexivity |]. rewrite <- EM.
    apply initializeDevice_open_undefined, open_device_no_devices. exact EM.
  - rewrite <- EM in *. right.
    destruct (first_not_busy MAX_BPF_DEVICES) as [Hall | [k [Hk [Hb [Hd | [fd Hok]]]]]].
    + left. destruct (open_device_exhausted s ltac:(lia) Hall) as [e [Ho E]].
      exists e. repeat split; try assumption; try lia.
      apply initializeDevice_open_fatal. exact E.
    + right. left. exists k. repeat split; try assumption.
      apply initializeDevice_open_fatal, open_device_denied; assumption.
    + right. right.
      destruct (open_device_opened s k fd Hk (conj Hb Hok)) as [e E].
      exists k, fd, e. split; [exact Hk |]. split; [split; assumption |].
      apply initializeDevice_after_open. exact E.
Qed.

End Initialize.

(** The buffer length is what an [int] makes of the kernel's [u_int]. *)
Lemma ioctl_out_wraps :
  ioctl_out (SysOk 4096) = 4096
  /\ ioctl_out (SysOk 2147483648) = -2147483648.
Proof. split; reflexivity. Qed.

(** X1. Where the device paths fit [buffer_char] and the interface name
    fits [ifr_name], [initializeDevice] hands back a descriptor and a buffer
    length exactly when some device opens after only busy ones and the three
    [ioctl]s on it succeed.  The descriptor is then the one [open] gave
    (never negative), the length is the [u_int] that [BIOCGBLEN] stored as
    the [int] variable reads it (from [2^31] on it reads as negative), and
    the system calls made are the [open]s of indices [0..k] followed by
    [BIOCSETIF], [BIOCIMMEDIATE], [BIOCGBLEN] on that descriptor, in this
    order. *)
Theorem initializeDevice_returns_configured_device (K : kernel)
  (MAX_BPF_DEVICES : nat) (interface_name : list OCTET) (s : os) (d n : Z) :
  buffers_hold MAX_BPF_DEVICES interface_name ->
  (forall s',
      initializeDevice K MAX_BPF_DEVICES interface_name s = (Value (d, n), s') ->
      exists k fd blen,
        (k < MAX_BPF_DEVICES)%nat /\ first_open K k fd /\ d = Z.of_N fd
        /\ ioctl_ok K d (BIOCSETIF interface_name)
        /\ ioctl_ok K d (BIOCIMMEDIATE 1)
        /\ k_ioctl K d BIOCGBLEN = SysOk blen /\ n = as_int (Z.of_N blen)
        /\ - 2 ^ 31 <= n < 2 ^ 31
        /\ calls s' = calls s ++ map Open (indices 0 (S k))
                              ++ configuration_calls interface_name d)
  /\ (forall k fd blen,
         (k < MAX_BPF_DEVICES)%nat -> first_open K k fd -> d = Z.of_N fd ->
         ioctl_ok K d (BIOCSETIF interface_name) ->
         ioctl_ok K d (BIOCIMMEDIATE 1) ->
         k_ioctl K d BIOCGBLEN = SysOk blen -> n = as_int (Z.of_N blen) ->
         exists s',
           initializeDevice K MAX_BPF_DEVICES interface_name s
           = (Value (d, n), s')).
Proof.
  intros _. split.
  - intros s' H.
    destruct (initializeDevice_cases K MAX_BPF_DEVICES interface_name s)
      as [[_ E] | [[e [_ [_ [_ E]]]] | [[k [_ [_ [_ E]]]] | [k [fd [e [Hk [Hf E]]]]]]]];
      rewrite E in H; try discriminate.
    rewrite configure_device_run in H.
    destruct (k_ioctl K (Z.of_N fd) (BIOCSETIF interface_name)) as [v1 |] eqn:E1;
      [| discriminate].
    destruct (k_ioctl K (Z.of_N fd) (BIOCIMMEDIATE 1)) as [v2 |] eqn:E2;
      [| discriminate].
    destruct (k_ioctl K (Z.of_N fd) BIOCGBLEN) as [blen |] eqn:E3;
      [| discriminate].
    injection H as <- <- <-. exists k, fd, blen.
    split; [exact Hk |]. split; [exact Hf |]. split; [reflexivity |].
    split; [exists v1; exact E1 |]. split; [exists v2; exact E2 |].
    split; [exact E3 |]. split; [reflexivity |]. split.
    + unfold as_int.
      pose proof (Z.mod_pos_bound (Z.of_N blen + 2 ^ 31) (2 ^ 32)
                    ltac:(reflexivity)).
      change (2 ^ 32) with (2 ^ 31 + 2 ^ 31) in *. lia.
    + cbn [calls]. rewrite <- app_assoc. reflexivity.
  - intros k fd blen Hk Hf -> [v1 E1] [v2 E2] E3 ->.
    destruct (open_device_opened K MAX_BPF_DEVICES s k fd Hk Hf) as [e E].
    rewrite (initializeDevice_after_open K MAX_BPF_DEVICES interface_name
               s _ _ E).
    rewrite configure_device_run, E1, E2, E3. eauto.
Qed.

Lemma initializeDevice_returns_configured_device_witness :
  exists k fd blen,
    (k < 4)%nat
    /\ first_open (kernel_of [SysErr EBUSY; SysErr ENOENT; SysOk 3]) k fd
    /\ 3 = Z.of_N fd
    /\ ioctl_ok (kernel_of [SysErr EBUSY; SysErr ENOENT; SysOk 3]) 3
                (BIOCSETIF en0)
    /\ ioctl_ok (kernel_of [SysErr EBUSY; SysErr ENOENT; SysOk 3]) 3
                (BIOCIMMEDIATE 1)
    /\ k_ioctl (kernel_of [SysErr EBUSY; SysErr ENOENT; SysOk 3]) 3 BIOCGBLEN
       = SysOk blen
    /\ 4096 = as_int (Z.of_N blen)
    /\ - 2 ^ 31 <= 4096 < 2 ^ 31
    /\ [Open 0; Open 1; Open 2; Ioctl 3 (BIOCSETIF en0);
        Ioctl 3 (BIOCIMMEDIATE 1); Ioctl 3 BIOCGBLEN]
       = calls (os_start 0) ++ map Open (indices 0 (S k))
               ++ configuration_calls en0 3.
Proof.
  assert (buffers_hold 4 en0) as Hfit.
  { split.
    - intros i Hi. unfold device_path_size, buffer_char_size.
      destruct (Z.ltb_spec i 10); [lia |]. simpl in Hi. lia.
    - unfold IFNAMSIZ. simpl. lia. }
  destruct (initializeDevice_returns_configured_device
              (kernel_of [SysErr EBUSY; SysErr ENOENT; SysOk 3]) 4 en0
              (os_start 0) 3 4096 Hfit) as [H _].
  apply (H {| errno := ENOENT;
              calls := [Open 0; Open 1; Open 2; Ioctl 3 (BIOCSETIF en0);
                        Ioctl 3 (BIOCIMMEDIATE 1); Ioctl 3 BIOCGBLEN] |}).
  reflexivity.
Defined.

(** X2. A fatal end of [initializeDevice] tells what failed, and nothing is
    called after the failure: a permission failure comes from the last
    [open] made, which answered [EACCES]; an unavailable device means every
    index was tried and the reported [errno] is that of the last one; a bind
    failure means a device was opened and [BIOCSETIF] on it, the last call,
    failed with the reported [errno]; a configuration failure means the bind
    succeeded and [BIOCIMMEDIATE] or, after it, [BIOCGBLEN] was the last
    call and failed with the reported [errno]. *)
Theorem initializeDevice_error_tells_what_failed (K : kernel)
  (MAX_BPF_DEVICES : nat) (interface_name : list OCTET) (s s' : os)
  (err : fatal_error) :
  initializeDevice K MAX_BPF_DEVICES interface_name s = (Fatal err, s') ->
  match err with
  | PermissionDenied =>
    exists k,
      (k < MAX_BPF_DEVICES)%nat
      /\ (forall j, 0 <= j < Z.of_nat k -> busy K j)
      /\ k_open K (Z.of_nat k) = SysErr EACCES
      /\ s' = {| errno := EACCES;
                 calls := calls s ++ map Open (indices 0 (S k)) |}
  | DeviceUnavailable e =>
    (0 < MAX_BPF_DEVICES)%nat
    /\ (forall j, 0 <= j < Z.of_nat MAX_BPF_DEVICES -> busy K j)
    /\ k_open K (Z.of_nat MAX_BPF_DEVICES - 1) = SysErr e
    /\ s' = {| errno := e;
               calls := calls s ++ map Open (indices 0 MAX_BPF_DEVICES) |}
  | InterfaceBindFailed e =>
    exists k fd,
      (k < MAX_BPF_DEVICES)%nat /\ first_open K k fd
      /\ k_ioctl K (Z.of_N fd) (BIOCSETIF interface_name) = SysErr e
      /\ s' = {| errno := e;
                 calls := calls s ++ map Open (indices 0 (S k))
                          ++ firstn 1 (configuration_calls interface_name
                                                            (Z.of_N fd)) |}
  | ConfigurationFailed e =>
    exists k fd,
      (k < MAX_BPF_DEVICES)%nat /\ first_open K k fd
      /\ ioctl_ok K (Z.of_N fd) (BIOCSETIF interface_name)
      /\ ((k_ioctl K (Z.of_N fd) (BIOCIMMEDIATE 1) = SysErr e
           /\ s' = {| errno := e;
                      calls := calls s ++ map Open (indices 0 (S k))
                               ++ firstn 2 (configuration_calls
                                              interface_name (Z.of_N fd)) |})
          \/ (ioctl_ok K (Z.of_N fd) (BIOCIMMEDIATE 1)
              /\ k_ioctl K (Z.of_N fd) BIOCGBLEN = SysErr e
              /\ s' = {| errno := e;
                         calls := calls s ++ map Open (indices 0 (S k))
                                  ++ configuration_calls interface_name
                                                         (Z.of_N fd) |}))
  end.
Proof.
  intros H.
  destruct (initializeDevice_cases K MAX_BPF_DEVICES interface_name s)
    as [[_ E] | [[e [Hp [Hb [Ho E]]]] | [[k [Hk [Hb [Ho E]]]]
                                        | [k [fd [e [Hk [Hf E]]]]]]]];
    rewrite E in H.
  - discriminate.
  - injection H as <- <-. repeat split; assumption.
  - injection H as <- <-. exists k. repeat split; assumption.
  - rewrite configure_device_run in H.
    destruct (k_ioctl K (Z.of_N fd) (BIOCSETIF interface_name)) as [v1 | e1]
      eqn:E1.
    + destruct (k_ioctl K (Z.of_N fd) (BIOCIMMEDIATE 1)) as [v2 | e2] eqn:E2.
      * destruct (k_ioctl K (Z.of_N fd) BIOCGBLEN) as [blen | e3] eqn:E3;
          [discriminate |].
        injection H as <- <-. exists k, fd.
        split; [exact Hk |]. split; [exact Hf |].
        split; [exists v1; exact E1 |]. right.
        split; [exists v2; exact E2 |]. split; [exact E3 |].
        cbn [calls]. rewrite <- app_assoc. reflexivity.
      * injection H as <- <-. exists k, fd.
        split; [exact Hk |]. split; [exact Hf |].
        split; [exists v1; exact E1 |]. left.
        split; [exact E2 |].
        cbn [calls]. rewrite <- app_assoc. reflexivity.
    + injection H as <- <-. exists k, fd.
      split; [exact Hk |]. split; [exact Hf |]. split; [exact E1 |].
      cbn [calls]. rewrite <- app_assoc. reflexivity.
Qed.

Lemma initializeDevice_error_tells_what_failed_witness :
  exists k fd,
    (k < 4)%nat /\ first_open kernel_bind_fails k fd
    /\ k_ioctl kernel_bind_fails (Z.of_N fd) (BIOCSETIF en0) = SysErr ENXIO
    /\ {| errno := ENXIO;
          calls := [Open 0; Open 1; Ioctl 3 (BIOCSETIF en0)] |}
       = {| errno := ENXIO;
            calls := calls (os_start 0) ++ map Open (indices 0 (S k))
                     ++ firstn 1 (configuration_calls en0 (Z.of_N fd)) |}.
Proof.
  apply (initializeDevice_error_tells_what_failed
           kernel_bind_fails 4 en0 (os_start 0)
           {| errno := ENXIO;
              calls := [Open 0; Open 1; Ioctl 3 (BIOCSETIF en0)] |}
           (InterfaceBindFailed ENXIO)).
  reflexivity.
Defined.

(** X3. Whatever the kernel answers, [initializeDevice] opens
    [/dev/bpf0], [/dev/bpf1], ... in ascending order without gap or
    repetition, at most [MAX_BPF_DEVICES] of them and at least one when
    there is one to try; every index but the last one opened was busy; at
    most three system calls follow the [open]s and none of them is an
    [open]. *)
Theorem initializeDevice_opens_ascending_prefix (K : kernel)
  (MAX_BPF_DEVICES : nat) (interface_name : list OCTET) (s : os) :
  exists (m : nat) (rest : list syscall),
    (m <= MAX_BPF_DEVICES)%nat
    /\ ((1 <= MAX_BPF_DEVICES)%nat -> (1 <= m)%nat)
    /\ calls (snd (initializeDevice K MAX_BPF_DEVICES interface_name s))
       = calls s ++ map Open (indices 0 m) ++ rest
    /\ opened_indices rest = []
    /\ (length rest <= 3)%nat
    /\ (forall j, 0 <= j < Z.of_nat m - 1 -> busy K j).
Proof.
  destruct (initializeDevice_cases K MAX_BPF_DEVICES interface_name s)
    as [[E0 E] | [[e [Hp [Hb [Ho E]]]] | [[k [Hk [Hb [Ho E]]]]
                                         | [k [fd [e [Hk [[Hb Hok] E]]]]]]]];
    rewrite E.
  - exists 0%nat, []. cbn [snd indices map]. rewrite !app_nil_r.
    repeat split; try reflexivity; try (simpl; lia).
  - exists MAX_BPF_DEVICES, []. cbn [snd calls]. rewrite app_nil_r.
    repeat split; try reflexivity; try (simpl; lia).
    intros j Hj. apply Hb. lia.
  - exists (S k), []. cbn [snd calls]. rewrite app_nil_r.
    repeat split; try reflexivity; try (simpl; lia).
    intros j Hj. apply Hb. lia.
  - rewrite configure_device_run.
    destruct (k_ioctl K (Z.of_N fd) (BIOCSETIF interface_name));
      [destruct (k_ioctl K (Z.of_N fd) (BIOCIMMEDIATE 1));
       [destruct (k_ioctl K (Z.of_N fd) BIOCGBLEN) | ] |];
      cbn [snd calls]; rewrite <- app_assoc;
      eexists (S k), _; (split; [lia |]); (split; [lia |]);
      (split; [reflexivity |]); (split; [reflexivity |]);
      (split; [simpl; lia |]); intros j Hj; apply Hb; lia.
Qed.

(** ** More on the buffer walk *)

Lemma le_value_bounds (bs : list OCTET) :
  0 <= le_value bs < 256 ^ Z.of_nat (length bs).
Proof.
  induction bs as [| b bs IH].
  - simpl. lia.
  - cbn [le_value length]. rewrite Nat2Z.inj_succ, Z.pow_succ_r by lia.
    assert (0 <= octet_value b < 256) as Hb.
    { unfold octet_value. pose proof (Byte.to_N_bounded b). lia. }
    lia.
Qed.

Lemma load_bytes_length (buf : buffer) (off len : Z) (bs : list OCTET) :
  0 <= len -> load_bytes buf off len = Some bs -> length bs = Z.to_nat len.
Proof.
  intros Hlen. unfold load_bytes.
  destruct (Z.leb_spec 0 off); [| discriminate].
  destruct (Z.leb_spec (off + len) (Z.of_nat (length buf))); [| discriminate].
  simpl. intros E. inversion E; subst.
  rewrite length_firstn, length_skipn. lia.
Qed.

Lemma load_field_range (abi : bpf_abi) (buf : buffer) (c : Z) (f : hdr_field)
  (v : Z) :
  load_field abi buf c f = Some v -> 0 <= v < 256 ^ field_size f.
Proof.
  unfold load_field, load_uint.
  destruct (load_bytes buf (c + field_offset abi f) (field_size f)) as [bs |]
    eqn:E; [| discriminate].
  simpl. intros H. inversion H; subst.
  assert (0 <= field_size f) as Hs by (destruct f; simpl; lia).
  pose proof (load_bytes_length _ _ _ _ Hs E) as L.
  unfold decode_uint.
  destruct (big_endian abi).
  - pose proof (le_value_bounds (rev bs)) as B.
    rewrite length_rev, L, Z2Nat.id in B by exact Hs. exact B.
  - pose proof (le_value_bounds bs) as B.
    rewrite L, Z2Nat.id in B by exact Hs. exact B.
Qed.

(** A parsed header holds a [u_short] and a [u_int32]. *)
Lemma hdr_at_range (abi : bpf_abi) (buf : buffer) (c : Z) (h : bpf_hdr) :
  hdr_at abi buf c = Some h ->
  0 <= bh_hdrlen h < 2 ^ 16 /\ 0 <= bh_caplen h < 2 ^ 32.
Proof.
  intros Hh. apply hdr_at_fields in Hh as [E1 E2].
  apply load_field_range in E1. apply load_field_range in E2.
  split; [exact E1 | exact E2].
Qed.

Section WalkInvariants.

Variable abi : bpf_abi.
Variable buf : buffer.
Variable read_bytes : Z.
Hypothesis alignment_pos : 0 < BPF_ALIGNMENT abi.

Lemma advance_multiple (h : bpf_hdr) : advance abi h mod BPF_ALIGNMENT abi = 0.
Proof. apply BPF_WORDALIGN_multiple. exact alignment_pos. Qed.

Lemma aligned_step (c : Z) (h : bpf_hdr) :
  c mod BPF_ALIGNMENT abi = 0 ->
  (c + advance abi h) mod BPF_ALIGNMENT abi = 0.
Proof.
  intros Hc. rewrite Z.add_mod, Hc, advance_multiple by lia. reflexivity.
Qed.

(** A record that moves the cursor moves it by at least the unit. *)
Lemma advance_at_least_unit (h : bpf_hdr) :
  0 < advance abi h -> BPF_ALIGNMENT abi <= advance abi h.
Proof.
  intros Hpos. pose proof (advance_multiple h) as M.
  apply Z.mod_divide in M; [| lia].
  destruct M as [q Hq]. rewrite Hq in *.
  assert (0 < q) as Hq1
      by (apply (Z.mul_pos_cancel_r q (BPF_ALIGNMENT abi)); lia).
  replace (BPF_ALIGNMENT abi) with (1 * BPF_ALIGNMENT abi) at 1 by lia.
  apply Z.mul_le_mono_nonneg_r; lia.
Qed.

Lemma body_events_fetch (c0 c : Z) (h : bpf_hdr) (f : hdr_field) :
  In (Fetch c f) (body_events c0 h) -> c = c0.
Proof.
  unfold body_events. simpl.
  intros H. repeat (destruct H as [H | H]; [inversion H; reflexivity |]).
  contradiction.
Qed.

Lemma walk_aligned (fuel : nat) :
  forall c0,
    c0 mod BPF_ALIGNMENT abi = 0 ->
    (forall c f, In (Fetch c f) (fst (walk abi buf read_bytes fuel c0)) ->
                 c mod BPF_ALIGNMENT abi = 0)
    /\ result_cursor (snd (walk abi buf read_bytes fuel c0))
       mod BPF_ALIGNMENT abi = 0.
Proof.
  induction fuel as [| fuel IH]; intros c0 H0.
  - simpl. split; [contradiction | exact H0].
  - rewrite walk_unfold.
    pose proof (walk_step_turn abi buf read_bytes c0) as T.
    inversion T as [h Hc Hh Hev Hst | Hc Hev Hst | evs Hc Hh Hf Hev Hst].
    + destruct (IH (c0 + advance abi h) (aligned_step c0 h H0)) as [IH1 IH2].
      cbn [fst snd]. split; [| exact IH2].
      intros c f Hin. apply in_app_or in Hin as [Hin | Hin].
      * apply body_events_fetch in Hin. now subst.
      * eapply IH1. exact Hin.
    + cbn [fst snd result_cursor]. split; [contradiction | exact H0].
    + cbn [fst snd result_cursor]. split; [| exact H0].
      intros c f Hin. destruct (Hf _ Hin) as [f' E]. inversion E. now subst.
Qed.

(** The frames of a walk that ends: each one but the last stands at least
    one unit before the next, and the last one starts below
    [read_bytes]. *)
Lemma walk_frames_spread (fuel : nat) :
  forall c0 cf,
    snd (walk abi buf read_bytes fuel c0) = Finished cf ->
    sink_calls (fst (walk abi buf read_bytes fuel c0)) = []
    \/ (Z.of_nat (length (sink_calls (fst (walk abi buf read_bytes fuel c0))))
        - 1) * BPF_ALIGNMENT abi < read_bytes - c0.
Proof.
  induction fuel as [| fuel IH]; intros c0 cf.
  - discriminate.
  - rewrite walk_unfold.
    pose proof (walk_step_turn abi buf read_bytes c0) as T.
    inversion T as [h Hc Hh Hev Hst | Hc Hev Hst | evs Hc Hh Hf Hev Hst];
      cbn [fst snd]; [| now left | discriminate].
    intros Hfin. right.
    assert (0 < advance abi h) as Hadv.
    { destruct (Z.eq_dec (advance abi h) 0) as [E0 | Hn].
      - rewrite E0, Z.add_0_r in Hfin.
        rewrite (walk_stuck abi buf read_bytes c0 h Hc Hh E0 fuel) in Hfin.
        discriminate.
      - pose proof (advance_nonneg abi alignment_pos h). lia. }
    pose proof (advance_at_least_unit h Hadv) as Hunit.
    unfold sink_calls in *. rewrite flat_map_app, length_app.
    change (length (flat_map _ (body_events c0 h))) with 1%nat.
    destruct (IH _ _ Hfin) as [E | Hlt].
    + rewrite E. simpl. lia.
    + nia.
Qed.

End WalkInvariants.

(** X5. With a positive alignment unit, a walk that starts at an aligned
    cursor (as [sniff] starts it, at 0) parses headers at aligned cursors
    only, and the cursor it is left with is aligned too, whatever the buffer
    holds and however the walk ends. *)
Theorem walk_cursor_stays_aligned (abi : bpf_abi) (buf : buffer)
  (read_bytes c0 : Z) (fuel : nat) :
  0 < BPF_ALIGNMENT abi ->
  c0 mod BPF_ALIGNMENT abi = 0 ->
  (forall c f, In (Fetch c f) (fst (walk abi buf read_bytes fuel c0)) ->
               c mod BPF_ALIGNMENT abi = 0)
  /\ result_cursor (snd (walk abi buf read_bytes fuel c0))
     mod BPF_ALIGNMENT abi = 0.
Proof. intros Hpos H0. apply walk_aligned; assumption. Qed.

Lemma walk_cursor_stays_aligned_witness :
  (forall c f,
      In (Fetch c f)
         (fst (walk abi_darwin (after_read 4096 reply_two_records) 96 3 0)) ->
      c mod 4 = 0)
  /\ result_cursor
       (snd (walk abi_darwin (after_read 4096 reply_two_records) 96 3 0))
     mod 4 = 0.
Proof.
  apply (walk_cursor_stays_aligned
           abi_darwin (after_read 4096 reply_two_records) 96 0 3);
    reflexivity.
Defined.

(** X6. With a positive alignment unit, a walk of [read_bytes > 0] bytes
    that leaves its loop has called the frame sink fewer than
    [read_bytes / unit + 1] times: at most one frame per alignment unit of
    the read. *)
Theorem walk_frame_count_bounded (abi : bpf_abi) (buf : buffer)
  (read_bytes cf : Z) (fuel : nat) :
  0 < BPF_ALIGNMENT abi -> 0 < read_bytes ->
  snd (walk abi buf read_bytes fuel 0) = Finished cf ->
  Z.of_nat (length (sink_calls (fst (walk abi buf read_bytes fuel 0))))
  * BPF_ALIGNMENT abi
  < read_bytes + BPF_ALIGNMENT abi.
Proof.
  intros Hpos Hn Hfin.
  destruct (walk_frames_spread abi buf read_bytes Hpos fuel 0 cf Hfin)
    as [E | Hlt].
  - rewrite E. simpl. lia.
  - lia.
Qed.

Lemma walk_frame_count_bounded_witness :
  Z.of_nat
    (length (sink_calls
               (fst (walk abi_align8 (after_read 4096 reply_two_records)
                          96 3 0))))
  * 8 < 96 + 8.
Proof.
  apply (walk_frame_count_bounded
           abi_align8 (after_read 4096 reply_two_records) 96 96 3).
  - reflexivity.
  - reflexivity.
  - vm_compute. reflexivity.
Defined.

(** X7. The exact condition for the walk to stall.  A parsed header holds
    a 16-bit [bh_hdrlen] and a 32-bit [bh_caplen]; with a positive alignment
    unit, the walk stays at the record for ever exactly when the two lengths
    add up to 0 or to [2^32], where their 32-bit sum wraps to 0. *)
Theorem walk_stalls_iff_length_wraps_to_zero (abi : bpf_abi) (buf : buffer)
  (read_bytes c : Z) (h : bpf_hdr) :
  0 < BPF_ALIGNMENT abi -> c < read_bytes -> hdr_at abi buf c = Some h ->
  (0 <= bh_hdrlen h < 2 ^ 16 /\ 0 <= bh_caplen h < 2 ^ 32)
  /\ ((forall fuel, snd (walk abi buf read_bytes fuel c) = Unfinished c)
      <-> (bh_hdrlen h + bh_caplen h = 0
           \/ bh_hdrlen h + bh_caplen h = 2 ^ 32)).
Proof.
  intros Hpos Hc Hh.
  pose proof (hdr_at_range abi buf c h Hh) as [R1 R2].
  split; [split; assumption |]. split.
  - intros Hstuck. specialize (Hstuck 1%nat).
    rewrite walk_unfold, (walk_step_body abi buf read_bytes c h Hc Hh)
      in Hstuck.
    cbn in Hstuck. inversion Hstuck as [E].
    assert (advance abi h = 0) as E0 by lia.
    apply BPF_WORDALIGN_zero in E0;
      [| exact Hpos | apply record_length_nonneg].
    unfold record_length in E0.
    apply Z.mod_divide in E0; [| lia].
    destruct E0 as [q Hq]. change (2 ^ 16) with 65536 in *.
    change (2 ^ 32) with 4294967296 in *. lia.
  - intros Hsum. apply (walk_stuck abi buf read_bytes c h Hc Hh).
    unfold advance, record_length.
    assert ((bh_hdrlen h + bh_caplen h) mod 2 ^ 32 = 0) as ->.
    { destruct Hsum as [-> | ->]; reflexivity. }
    unfold BPF_WORDALIGN. rewrite Z.div_small by lia. reflexivity.
Qed.

Lemma walk_stalls_iff_length_wraps_to_zero_witness :
  snd (walk abi_darwin (after_read 4096 reply_wrapping) 18 1000 0)
  = Unfinished 0.
Proof.
  destruct (walk_stalls_iff_length_wraps_to_zero
              abi_darwin (after_read 4096 reply_wrapping) 18 0
              {| bh_caplen := 4294967278; bh_hdrlen := 18 |}) as [_ [_ H]].
  - reflexivity.
  - reflexivity.
  - vm_compute. reflexivity.
  - apply H. right. reflexivity.
Defined.

(** X8. Whole records, any number of them: when the headers found from the
    cursor on are [hs], each at a cursor below [read_bytes], and the row
    they form ends at or past [read_bytes], the walk hands every frame to
    the sink exactly once, in buffer order, and leaves its loop at the end
    of the row; one turn of fuel per record and one more are enough. *)
Theorem walk_delivers_each_record_once (abi : bpf_abi) (buf : buffer)
  (read_bytes : Z) (hs : list bpf_hdr) :
  forall (c : Z) (fuel : nat),
    laid_out abi buf read_bytes c hs ->
    read_bytes <= end_of abi c hs ->
    (length hs < fuel)%nat ->
    sink_calls (fst (walk abi buf read_bytes fuel c)) = frames abi c hs
    /\ snd (walk abi buf read_bytes fuel c) = Finished (end_of abi c hs).
Proof.
  induction hs as [| h rest IH]; intros c fuel Hl Hend Hfuel.
  - destruct fuel as [| fuel]; [simpl in Hfuel; lia |].
    simpl in Hend.
    rewrite walk_unfold, (walk_step_exit abi buf read_bytes c Hend).
    split; reflexivity.
  - destruct fuel as [| fuel]; [simpl in Hfuel; lia |].
    destruct Hl as [Hc [Hh Hrest]].
    rewrite walk_unfold, (walk_step_body abi buf read_bytes c h Hc Hh).
    cbn [fst snd].
    destruct (IH (c + advance abi h) fuel Hrest Hend) as [IH1 IH2].
    { simpl in Hfuel. lia. }
    split; [| exact IH2].
    unfold sink_calls in *. rewrite flat_map_app, IH1. reflexivity.
Qed.

Lemma walk_delivers_each_record_once_witness :
  sink_calls (fst (walk abi_align8 (after_read 4096 reply_two_records) 96 3 0))
  = frames abi_align8 0 [{| bh_caplen := 46; bh_hdrlen := 18 |};
                         {| bh_caplen := 10; bh_hdrlen := 18 |}]
  /\ snd (walk abi_align8 (after_read 4096 reply_two_records) 96 3 0)
     = Finished
         (end_of abi_align8 0 [{| bh_caplen := 46; bh_hdrlen := 18 |};
                               {| bh_caplen := 10; bh_hdrlen := 18 |}]).
Proof.
  apply (walk_delivers_each_record_once
           abi_align8 (after_read 4096 reply_two_records) 96
           [{| bh_caplen := 46; bh_hdrlen := 18 |};
            {| bh_caplen := 10; bh_hdrlen := 18 |}] 0 3).
  - vm_compute. repeat split; reflexivity.
  - vm_compute. discriminate.
  - simpl. lia.
Defined.

(** *** What lies behind the bytes read *)

Lemma Forall_firstn_of {A : Type} (P : A -> Prop) (n : nat) :
  forall l, Forall P l -> Forall P (firstn n l).
Proof.
  induction n as [| n IH]; intros l H; [constructor |].
  destruct H; simpl; constructor; auto.
Qed.

Lemma Forall_skipn_of {A : Type} (P : A -> Prop) (n : nat) :
  forall l, Forall P l -> Forall P (skipn n l).
Proof.
  induction n as [| n IH]; intros l H; [exact H |].
  destruct H; simpl; [constructor | auto].
Qed.

Lemma Forall_repeat_eq {A : Type} (x : A) (n : nat) :
  Forall (eq x) (repeat x n).
Proof. induction n; simpl; constructor; auto. Qed.

Lemma le_value_cleared (bs : list OCTET) :
  Forall (eq x00) bs -> le_value bs = 0.
Proof.
  induction 1 as [| b bs Hb _ IH]; [reflexivity |].
  subst b. cbn [le_value]. rewrite IH. reflexivity.
Qed.

(** Behind the bytes the kernel copied, the buffer is what the [memset]
    left. *)
Lemma after_read_cleared (bpf_buff_size : Z) (k : read_reply) (off : nat) :
  (Z.to_nat (rr_ret k) <= off)%nat ->
  Forall (eq x00) (skipn off (after_read bpf_buff_size k)).
Proof.
  intros Hoff. unfold after_read, zeroed.
  set (got := firstn (Z.to_nat (Z.min (rr_ret k) bpf_buff_size)) (rr_data k)).
  assert (length got <= off)%nat as Hgot.
  { subst got. rewrite length_firstn. lia. }
  rewrite skipn_app, (skipn_all2 got Hgot). simpl.
  apply Forall_skipn_of, Forall_skipn_of, Forall_repeat_eq.
Qed.

Lemma load_field_cleared (abi : bpf_abi) (bpf_buff_size : Z) (k : read_reply)
  (c : Z) (f : hdr_field) :
  0 <= rr_ret k <= c + field_offset abi f ->
  c + field_offset abi f + field_size f <= bpf_buff_size ->
  load_field abi (after_read bpf_buff_size k) c f = Some 0.
Proof.
  intros Hlo Hhi. unfold load_field, load_uint, load_bytes.
  rewrite after_read_length.
  assert (0 <= field_size f) as Hs by (destruct f; simpl; lia).
  destruct (Z.leb_spec 0 (c + field_offset abi f)); [| lia].
  destruct (Z.leb_spec (c + field_offset abi f + field_size f)
                       (Z.of_nat (Z.to_nat bpf_buff_size))); [| lia].
  simpl. f_equal. unfold decode_uint.
  assert (Forall (eq x00)
                 (firstn (Z.to_nat (field_size f))
                         (skipn (Z.to_nat (c + field_offset abi f))
                                (after_read bpf_buff_size k)))) as Z0.
  { apply Forall_firstn_of, after_read_cleared. lia. }
  destruct (big_endian abi).
  - apply le_value_cleared, Forall_rev, Z0.
  - apply le_value_cleared, Z0.
Qed.

(** X9. A read that ends on a fragment too short to reach the length
    fields of the next header: when the cursor is below [read_bytes] but
    both [bh_hdrlen] and [bh_caplen] of the header there lie at or behind
    [read_bytes], inside the buffer, the fields are read from the part the
    [memset] cleared, the header reads as an empty record, and the walk
    stays at that cursor for ever. *)
Theorem walk_stalls_on_short_fragment (abi : bpf_abi) (bpf_buff_size : Z)
  (k : read_reply) (c : Z) :
  0 < BPF_ALIGNMENT abi ->
  0 <= c < rr_ret k ->
  rr_ret k <= c + off_bh_hdrlen abi ->
  rr_ret k <= c + off_bh_caplen abi ->
  c + off_bh_hdrlen abi + 2 <= bpf_buff_size ->
  c + off_bh_caplen abi + 4 <= bpf_buff_size ->
  hdr_at abi (after_read bpf_buff_size k) c
  = Some {| bh_caplen := 0; bh_hdrlen := 0 |}
  /\ forall fuel,
       snd (walk abi (after_read bpf_buff_size k) (rr_ret k) fuel c)
       = Unfinished c.
Proof.
  intros Hpos Hc H1 H2 H3 H4.
  assert (hdr_at abi (after_read bpf_buff_size k) c
          = Some {| bh_caplen := 0; bh_hdrlen := 0 |}) as Hh.
  { unfold hdr_at.
    rewrite (load_field_cleared abi bpf_buff_size k c F_hdrlen),
            (load_field_cleared abi bpf_buff_size k c F_caplen);
      simpl; trivial; lia. }
  split; [exact Hh |].
  apply (walk_stuck abi _ _ c _ (proj2 Hc) Hh).
  apply advance_empty; trivial.
Qed.

Lemma walk_stalls_on_short_fragment_witness :
  hdr_at abi_darwin (after_read 4096 reply_truncated) 64
  = Some {| bh_caplen := 0; bh_hdrlen := 0 |}
  /\ snd (walk abi_darwin (after_read 4096 reply_truncated)
               (rr_ret reply_truncated) 1000 64)
     = Unfinished 64.
Proof.
  assert (0 < BPF_ALIGNMENT abi_darwin) as A0 by reflexivity.
  assert (0 <= 64 < rr_ret reply_truncated) as A1 by (cbn; lia).
  assert (rr_ret reply_truncated <= 64 + off_bh_hdrlen abi_darwin) as A2
      by (cbn; lia).
  assert (rr_ret reply_truncated <= 64 + off_bh_caplen abi_darwin) as A3
      by (cbn; lia).
  assert (64 + off_bh_hdrlen abi_darwin + 2 <= 4096) as A4 by (cbn; lia).
  assert (64 + off_bh_caplen abi_darwin + 4 <= 4096) as A5 by (cbn; lia).
  destruct (walk_stalls_on_short_fragment
              abi_darwin 4096 reply_truncated 64 A0 A1 A2 A3 A4 A5)
    as [H1 H2].
  split; [exact H1 | apply H2].
Defined.

(** ** More on the capture loop *)

Section SniffInvariants.

Variable abi : bpf_abi.
Variable bpf_buff_size : Z.
Variable resets : bool.

Lemma run_nil (p : process) : run abi bpf_buff_size resets [] p = ([], p).
Proof. reflexivity. Qed.

Lemma sniff_step_ctl_returned (k : read_reply) (p : process) :
  ctl (snd (sniff_step abi bpf_buff_size k p)) = Returned ->
  ctl p = Returned \/ (ctl p = LoopHead /\ running p = false).
Proof.
  unfold sniff_step. destruct p as [r sa [| | buf n c | | |]]; simpl;
    try discriminate; auto.
  - destruct r; simpl; [discriminate | auto].
  - destruct (0 <? rr_ret k); discriminate.
  - destruct (walk_step abi buf n c) as [evs [c' | |]]; discriminate.
Qed.

Lemma deliver_SIGINT_ctl (p : process) :
  ctl (deliver_SIGINT resets p) = ctl p
  \/ ctl (deliver_SIGINT resets p) = Killed.
Proof.
  unfold deliver_SIGINT. destruct (alive p); [| now left].
  destruct (sigint_action p).
  - now right.
  - left. rewrite signalHandler_ctl. destruct resets; reflexivity.
Qed.

(** [sniff] has returned only with [running] false. *)
Lemma act_returned_stopped (a : action) (p : process) :
  (ctl p = Returned -> running p = false) ->
  ctl (snd (act abi bpf_buff_size resets a p)) = Returned ->
  running (snd (act abi bpf_buff_size resets a p)) = false.
Proof.
  intros Inv. destruct a as [k |]; simpl.
  - intros H. rewrite sniff_step_running.
    destruct (sniff_step_ctl_returned k p H) as [E | [_ E]]; auto.
  - intros H. destruct (deliver_SIGINT_ctl p) as [E | E].
    + rewrite E in H. apply deliver_SIGINT_keeps_stopped. auto.
    + rewrite E in H. discriminate.
Qed.

Lemma run_returned_stopped (acts : list action) :
  forall p,
    (ctl p = Returned -> running p = false) ->
    ctl (snd (run abi bpf_buff_size resets acts p)) = Returned ->
    running (snd (run abi bpf_buff_size resets acts p)) = false.
Proof.
  induction acts as [| a rest IH]; intros p Inv.
  - simpl. exact Inv.
  - rewrite run_cons. cbn [snd]. apply IH.
    apply act_returned_stopped. exact Inv.
Qed.

(** Program steps alone leave [running] as it is. *)
Lemma run_steps_running (ks : list read_reply) :
  forall p,
    running (snd (run abi bpf_buff_size resets (map Step ks) p)) = running p.
Proof.
  induction ks as [| k ks IH]; intros p; [reflexivity |].
  cbn [map]. rewrite run_cons. cbn [snd act].
  rewrite IH. apply sniff_step_running.
Qed.

Lemma interrupt_or_steps (acts : list action) :
  In Interrupt acts \/ exists ks, acts = map Step ks.
Proof.
  induction acts as [| [k |] rest [IH | [ks ->]]].
  - right. exists []. reflexivity.
  - left. now right.
  - right. exists (k :: ks). reflexivity.
  - left. now left.
  - left. now left.
Qed.

(** With the handler installed a delivery runs the handler: nobody is
    killed and the handler is installed afterwards. *)
Lemma act_keeps_handler (a : action) (p : process) :
  sigint_action p = Installed -> ctl p <> Killed ->
  sigint_action (snd (act abi bpf_buff_size resets a p)) = Installed
  /\ ctl (snd (act abi bpf_buff_size resets a p)) <> Killed.
Proof.
  intros Hi Hk. destruct a as [k |]; simpl.
  - split; [rewrite sniff_step_sigint_action; exact Hi |].
    unfold sniff_step. destruct p as [r sa [| | buf n c | | |]]; simpl in *;
      try discriminate; try congruence.
    + destruct r; discriminate.
    + destruct (0 <? rr_ret k); discriminate.
    + destruct (walk_step abi buf n c) as [evs [c' | |]]; discriminate.
  - unfold deliver_SIGINT. destruct (alive p) eqn:Ha.
    + rewrite Hi. split; [apply signalHandler_rearms |].
      rewrite signalHandler_ctl. destruct resets; exact Hk.
    + split; assumption.
Qed.

Lemma run_keeps_handler (acts : list action) :
  forall p,
    sigint_action p = Installed -> ctl p <> Killed ->
    sigint_action (snd (run abi bpf_buff_size resets acts p)) = Installed
    /\ ctl (snd (run abi bpf_buff_size resets acts p)) <> Killed.
Proof.
  induction acts as [| a rest IH]; intros p Hi Hk.
  - simpl. split; assumption.
  - rewrite run_cons. cbn [snd].
    destruct (act_keeps_handler a p Hi Hk) as [Hi' Hk'].
    apply IH; assumption.
Qed.

End SniffInvariants.

(** X10. [sniff] returns only after a [SIGINT] has been delivered: from a
    state in which [running] is true and [sniff] has not returned, whatever
    the reads return and whatever the buffers hold, an execution that ends
    with [sniff] returned contains a delivery and has [running] false.  No
    result of [read] and no content of the buffer makes the loop end. *)
Theorem sniff_returns_only_after_sigint (abi : bpf_abi) (bpf_buff_size : Z)
  (resets : bool) (acts : list action) (p : process) :
  running p = true -> ctl p <> Returned ->
  ctl (snd (run abi bpf_buff_size resets acts p)) = Returned ->
  In Interrupt acts
  /\ running (snd (run abi bpf_buff_size resets acts p)) = false.
Proof.
  intros Hr Hc Hret.
  assert (running (snd (run abi bpf_buff_size resets acts p)) = false) as Hf.
  { apply run_returned_stopped; [| exact Hret]. intros E. contradiction. }
  split; [| exact Hf].
  destruct (interrupt_or_steps acts) as [Hin | [ks ->]]; [exact Hin |].
  rewrite run_steps_running in Hf. congruence.
Qed.

Lemma sniff_returns_only_after_sigint_witness :
  In Interrupt [Step reply_no_data; Interrupt; Step reply_no_data;
                Step reply_no_data]
  /\ running
       (snd (run abi_darwin 4096 false
                 [Step reply_no_data; Interrupt; Step reply_no_data;
                  Step reply_no_data]
                 main_prologue)) = false.
Proof.
  apply (sniff_returns_only_after_sigint abi_darwin 4096 false
           [Step reply_no_data; Interrupt; Step reply_no_data;
            Step reply_no_data]
           main_prologue).
  - reflexivity.
  - discriminate.
  - vm_compute. reflexivity.
Defined.

(** X11. Once [main] has installed the handler, no delivery of [SIGINT]
    terminates the process: in every execution, with either behaviour of
    [signal], the handler is installed after every step and delivery and
    the process is never killed by the default action.  (A delivery is
    taken to run the handler to completion.) *)
Theorem sigint_never_kills_once_installed (abi : bpf_abi) (bpf_buff_size : Z)
  (resets : bool) (acts : list action) (p : process) :
  sigint_action p = Installed -> ctl p <> Killed ->
  sigint_action (snd (run abi bpf_buff_size resets acts p)) = Installed
  /\ ctl (snd (run abi bpf_buff_size resets acts p)) <> Killed.
Proof. intros Hi Hk. apply run_keeps_handler; assumption. Qed.

Lemma sigint_never_kills_once_installed_witness :
  sigint_action
    (snd (run abi_darwin 4096 true
              [Interrupt; Step reply_no_data; Interrupt; Interrupt]
              main_prologue)) = Installed
  /\ ctl (snd (run abi_darwin 4096 true
                   [Interrupt; Step reply_no_data; Interrupt; Interrupt]
                   main_prologue)) <> Killed.
Proof.
  apply (sigint_never_kills_once_installed abi_darwin 4096 true
           [Interrupt; Step reply_no_data; Interrupt; Interrupt]
           main_prologue).
  - reflexivity.
  - discriminate.
Defined.

Section SniffProgress.

Variable abi : bpf_abi.
Variable bpf_buff_size : Z.
Variable resets : bool.

(** Inside the inner loop at a record that does not move the cursor, a
    step hands the same frame to the sink and a delivery only runs the
    handler; either way the process is where it was. *)
Lemma act_stalled (a : action) (p : process) (buf : buffer) (n c : Z)
  (h : bpf_hdr) :
  ctl p = Walking buf n c -> sigint_action p = Installed ->
  c < n -> hdr_at abi buf c = Some h -> advance abi h = 0 ->
  ctl (snd (act abi bpf_buff_size resets a p)) = Walking buf n c
  /\ sigint_action (snd (act abi bpf_buff_size resets a p)) = Installed
  /\ read_calls (fst (act abi bpf_buff_size resets a p)) = [].
Proof.
  intros Hctl Hi Hc Hh H0. destruct a as [k |]; simpl.
  - unfold sniff_step. rewrite Hctl, (walk_step_body abi buf n c h Hc Hh).
    rewrite H0, Z.add_0_r. simpl. auto.
  - rewrite deliver_SIGINT_handled; [simpl; auto | | exact Hi].
    unfold alive. rewrite Hctl. reflexivity.
Qed.

Lemma run_stalled (acts : list action) :
  forall (p : process) (buf : buffer) (n c : Z) (h : bpf_hdr),
    ctl p = Walking buf n c -> sigint_action p = Installed ->
    c < n -> hdr_at abi buf c = Some h -> advance abi h = 0 ->
    ctl (snd (run abi bpf_buff_size resets acts p)) = Walking buf n c
    /\ read_calls (fst (run abi bpf_buff_size resets acts p)) = [].
Proof.
  induction acts as [| a rest IH]; intros p buf n c h Hctl Hi Hc Hh H0.
  - simpl. auto.
  - rewrite run_cons. cbn [fst snd].
    destruct (act_stalled a p buf n c h Hctl Hi Hc Hh H0) as [E1 [E2 E3]].
    destruct (IH _ buf n c h E1 E2 Hc Hh H0) as [IH1 IH2].
    split; [exact IH1 |].
    unfold read_calls in *. rewrite filter_app, E3, IH2. reflexivity.
Qed.

(** Once [sniff] has returned, or stands at the loop test with [running]
    false, further steps change nothing more. *)
Lemma run_steps_returned (ks : list read_reply) :
  forall p,
    ctl p = Returned ->
    run abi bpf_buff_size resets (map Step ks) p = ([], p).
Proof.
  induction ks as [| k ks IH]; intros p Hc; [reflexivity |].
  cbn [map]. rewrite run_cons. cbn [act]. unfold sniff_step. rewrite Hc.
  cbn [fst snd]. rewrite (IH p Hc). reflexivity.
Qed.

Lemma run_steps_from_test_stopped (ks : list read_reply) (p : process) :
  ctl p = LoopHead -> running p = false -> ks <> [] ->
  run abi bpf_buff_size resets (map Step ks) p = ([], set_ctl Returned p).
Proof.
  intros Hc Hr Hk. destruct ks as [| k ks]; [contradiction |].
  cbn [map]. rewrite run_cons. cbn [act]. unfold sniff_step.
  rewrite Hc, Hr. cbn [fst snd].
  rewrite run_steps_returned by reflexivity. reflexivity.
Qed.

(** With [running] false, a walk that ends within [fuel] turns is followed
    by the return of [sniff]. *)
Lemma run_walk_then_return (buf : buffer) (n : Z) (fuel : nat) :
  forall (c cf : Z) (ks : list read_reply) (p : process),
    ctl p = Walking buf n c -> running p = false ->
    snd (walk abi buf n fuel c) = Finished cf ->
    length ks = S fuel ->
    run abi bpf_buff_size resets (map Step ks) p
    = (fst (walk abi buf n fuel c), set_ctl Returned p).
Proof.
  induction fuel as [| fuel IH]; intros c cf ks p Hc Hr Hw Hlen.
  - discriminate.
  - destruct ks as [| k ks]; [discriminate |].
    rewrite walk_unfold in Hw |- *.
    cbn [map]. rewrite run_cons. cbn [act]. unfold sniff_step. rewrite Hc.
    destruct (walk_step abi buf n c) as [evs [c1 | |]]; cbn [fst snd] in *;
      [| | discriminate].
    + rewrite (IH c1 cf ks (set_ctl (Walking buf n c1) p) eq_refl Hr Hw)
        by (simpl in Hlen; lia).
      reflexivity.
    + rewrite run_steps_from_test_stopped; trivial.
      * rewrite app_nil_r. reflexivity.
      * destruct ks; [discriminate | discriminate].
Qed.

(** Without a read that returned data the process never enters the inner
    loop. *)
Lemma act_no_data_no_walk (a : action) (p : process) :
  (forall buf n c, ctl p <> Walking buf n c) ->
  (forall n, In (Read n) (fst (act abi bpf_buff_size resets a p)) -> n <= 0) ->
  (forall buf n c,
      ctl (snd (act abi bpf_buff_size resets a p)) <> Walking buf n c)
  /\ sink_calls (fst (act abi bpf_buff_size resets a p)) = [].
Proof.
  intros Hnw Hrd. destruct a as [k |]; simpl in *.
  - unfold sniff_step in *.
    destruct p as [r sa [| | buf n c | | |]]; simpl in *.
    + split; [| reflexivity]. destruct r; discriminate.
    + split; [| reflexivity].
      destruct (Z.ltb_spec 0 (rr_ret k)) as [Hpos | Hle];
        [| discriminate].
      specialize (Hrd (rr_ret k) (or_introl eq_refl)). lia.
    + exfalso. apply (Hnw buf n c). reflexivity.
    + split; [discriminate | reflexivity].
    + split; [discriminate | reflexivity].
    + split; [discriminate | reflexivity].
  - split; [| reflexivity].
    intros buf n c E. destruct (deliver_SIGINT_ctl resets p) as [E' | E'].
    + rewrite E' in E. apply (Hnw buf n c). exact E.
    + rewrite E' in E. discriminate.
Qed.

Lemma run_no_data_no_sink (acts : list action) :
  forall p,
    (forall buf n c, ctl p <> Walking buf n c) ->
    (forall n, In (Read n) (fst (run abi bpf_buff_size resets acts p)) ->
               n <= 0) ->
    sink_calls (fst (run abi bpf_buff_size resets acts p)) = [].
Proof.
  induction acts as [| a rest IH]; intros p Hnw Hrd; [reflexivity |].
  rewrite run_cons in Hrd |- *. cbn [fst] in *.
  destruct (act_no_data_no_walk a p Hnw) as [Hnw' Hs].
  { intros n Hin. apply Hrd. apply in_or_app. now left. }
  unfold sink_calls in *. rewrite flat_map_app, Hs. simpl.
  apply IH; [exact Hnw' |].
  intros n Hin. apply Hrd. apply in_or_app. now right.
Qed.

End SniffProgress.

(** X12. A stalled walk cannot be stopped.  When the inner loop stands at
    a record that does not move the cursor and the handler is installed,
    every execution from there, whatever steps and [SIGINT] deliveries it is
    made of, leaves the process in the inner loop at the same cursor: no
    further [read] is made, [running] is not tested again and [sniff] does
    not return. *)
Theorem sniff_stalled_walk_ignores_sigint (abi : bpf_abi) (bpf_buff_size : Z)
  (resets : bool) (acts : list action) (p : process) (buf : buffer) (n c : Z)
  (h : bpf_hdr) :
  ctl p = Walking buf n c -> sigint_action p = Installed ->
  c < n -> hdr_at abi buf c = Some h -> advance abi h = 0 ->
  ctl (snd (run abi bpf_buff_size resets acts p)) = Walking buf n c
  /\ read_calls (fst (run abi bpf_buff_size resets acts p)) = [].
Proof. apply run_stalled. Qed.

Lemma sniff_stalled_walk_ignores_sigint_witness :
  ctl (snd (run abi_darwin 4096 false
                [Step reply_no_data; Interrupt; Step reply_no_data; Interrupt]
                (set_ctl (Walking (after_read 4096 reply_one_byte) 1 0)
                         main_prologue)))
  = Walking (after_read 4096 reply_one_byte) 1 0
  /\ read_calls
       (fst (run abi_darwin 4096 false
                 [Step reply_no_data; Interrupt; Step reply_no_data; Interrupt]
                 (set_ctl (Walking (after_read 4096 reply_one_byte) 1 0)
                          main_prologue))) = [].
Proof.
  apply (sniff_stalled_walk_ignores_sigint abi_darwin 4096 false
           [Step reply_no_data; Interrupt; Step reply_no_data; Interrupt]
           (set_ctl (Walking (after_read 4096 reply_one_byte) 1 0)
                    main_prologue)
           (after_read 4096 reply_one_byte) 1 0
           {| bh_caplen := 0; bh_hdrlen := 0 |}).
  - reflexivity.
  - reflexivity.
  - lia.
  - vm_compute. reflexivity.
  - reflexivity.
Defined.

(** X13. Shutdown completes.  With [running] false and the process inside
    the walk of a read, if that walk ends within [fuel] turns then after
    [fuel + 1] steps [sniff] has returned, having handed the remaining
    frames of that read to the sink and made no further [read]. *)
Theorem sniff_returns_after_current_walk (abi : bpf_abi) (bpf_buff_size : Z)
  (resets : bool) (buf : buffer) (n c cf : Z) (fuel : nat)
  (ks : list read_reply) (p : process) :
  ctl p = Walking buf n c -> running p = false ->
  snd (walk abi buf n fuel c) = Finished cf ->
  length ks = S fuel ->
  run abi bpf_buff_size resets (map Step ks) p
  = (fst (walk abi buf n fuel c), set_ctl Returned p)
  /\ read_calls (fst (walk abi buf n fuel c)) = [].
Proof.
  intros Hc Hr Hw Hlen. split.
  - eapply run_walk_then_return; eassumption.
  - pose proof (walk_guarded abi buf n fuel c) as G.
    induction G as [| e evs He _ IH]; [reflexivity |].
    unfold read_calls in *. simpl.
    destruct e; simpl in *; trivial. contradiction.
Qed.

Lemma sniff_returns_after_current_walk_witness :
  snd (run abi_align8 4096 false
           (map Step [reply_no_data; reply_no_data; reply_no_data;
                      reply_no_data])
           (set_ctl (Walking (after_read 4096 reply_two_records) 96 0)
                    (deliver_SIGINT false main_prologue)))
  = set_ctl Returned
      (set_ctl (Walking (after_read 4096 reply_two_records) 96 0)
               (deliver_SIGINT false main_prologue)).
Proof.
  destruct (sniff_returns_after_current_walk abi_align8 4096 false
              (after_read 4096 reply_two_records) 96 0 96 3
              [reply_no_data; reply_no_data; reply_no_data; reply_no_data]
              (set_ctl (Walking (after_read 4096 reply_two_records) 96 0)
                       (deliver_SIGINT false main_prologue))) as [H _].
  - reflexivity.
  - reflexivity.
  - vm_compute. reflexivity.
  - reflexivity.
  - rewrite H. reflexivity.
Defined.

(** X14. The frame sink is called only for reads that returned data: in an
    execution that starts outside the inner loop and in which every [read]
    returns 0 or a negative value, the sink is never called, however long
    the execution and whenever [SIGINT] arrives. *)
Theorem sniff_no_frame_without_data (abi : bpf_abi) (bpf_buff_size : Z)
  (resets : bool) (acts : list action) (p : process) :
  (forall buf n c, ctl p <> Walking buf n c) ->
  (forall n, In (Read n) (fst (run abi bpf_buff_size resets acts p)) ->
             n <= 0) ->
  sink_calls (fst (run abi bpf_buff_size resets acts p)) = [].
Proof. apply run_no_data_no_sink. Qed.

Lemma sniff_no_frame_without_data_witness :
  sink_calls
    (fst (run abi_darwin 4096 false
              [Step reply_no_data; Step reply_no_data; Step reply_no_data;
               Step {| rr_ret := -1; rr_data := [] |}]
              main_prologue)) = [].
Proof.
  apply (sniff_no_frame_without_data abi_darwin 4096 false
           [Step reply_no_data; Step reply_no_data; Step reply_no_data;
            Step {| rr_ret := -1; rr_data := [] |}]
           main_prologue).
  - intros buf n c. discriminate.
  - intros n Hin. vm_compute in Hin.
    destruct Hin as [E | [E | []]]; inversion E; lia.
Defined.

(** ** [parseArguments] *)

Lemma is_setter_cases (r : getopt_reply) :
  is_setter r = true -> go_ret r = char_o \/ go_ret r = char_i.
Proof.
  unfold is_setter. intros H. apply orb_true_iff in H as [H | H];
    apply Z.eqb_eq in H; auto.
Qed.

(** The loop takes [-o] and [-i] one after the other and goes on. *)
Lemma getopt_loop_setters (pre : list getopt_reply) :
  forall rest,
    Forall (fun r => is_setter r = true) pre ->
    getopt_loop (pre ++ rest)
    = (map setter_call pre ++ fst (getopt_loop rest), snd (getopt_loop rest)).
Proof.
  induction pre as [| r pre IH]; intros rest Hpre.
  - simpl. destruct (getopt_loop rest); reflexivity.
  - inversion Hpre as [| r' pre' Hr Hpre']; subst.
    cbn [app getopt_loop map]. rewrite (IH rest Hpre'). unfold setter_call.
    destruct (is_setter_cases r Hr) as [E | E]; rewrite E; reflexivity.
Qed.

(** X15. An option that ends the program ends the parsing.  After any
    number of [-o] and [-i], a [-h] makes [parseArguments] apply the options
    met so far, print the usage and exit with status 0, and an answer of
    [getopt] that is none of [-1], [h], [o], [i] makes it apply them and
    call [fatal] with [optopt]; in both cases nothing that follows on the
    command line is looked at and the required options are not checked. *)
Theorem parseArguments_stops_at_help_or_invalid (pre post : list getopt_reply)
  (r : getopt_reply) (required_ok : bool) :
  Forall (fun r => is_setter r = true) pre ->
  (go_ret r = char_h ->
   parseArguments (pre ++ r :: post) required_ok
   = (map setter_call pre ++ [PrintUsage], CliExit 0))
  /\ (go_ret r <> -1 -> go_ret r <> char_h -> go_ret r <> char_o ->
      go_ret r <> char_i ->
      parseArguments (pre ++ r :: post) required_ok
      = (map setter_call pre ++ [ReportInvalid (go_optopt r)], CliFatal)).
Proof.
  intros Hpre. split.
  - intros Eh. unfold parseArguments.
    rewrite (getopt_loop_setters pre (r :: post) Hpre).
    cbn [getopt_loop]. rewrite Eh. reflexivity.
  - intros H1 H2 H3 H4. unfold parseArguments.
    rewrite (getopt_loop_setters pre (r :: post) Hpre).
    cbn [getopt_loop].
    destruct (Z.eqb_spec (go_ret r) (-1)); [contradiction |].
    destruct (Z.eqb_spec (go_ret r) char_h); [contradiction |].
    destruct (Z.eqb_spec (go_ret r) char_o); [contradiction |].
    destruct (Z.eqb_spec (go_ret r) char_i); [contradiction |].
    reflexivity.
Qed.

Lemma parseArguments_stops_at_help_or_invalid_witness :
  parseArguments
    ([{| go_ret := char_i; go_optarg := en0; go_optopt := 0 |}]
       ++ {| go_ret := char_h; go_optarg := []; go_optopt := 0 |}
       :: [{| go_ret := 63; go_optarg := []; go_optopt := 120 |}])
    false
  = (map setter_call
         [{| go_ret := char_i; go_optarg := en0; go_optopt := 0 |}]
       ++ [PrintUsage],
     CliExit 0).
Proof.
  apply (parseArguments_stops_at_help_or_invalid
           [{| go_ret := char_i; go_optarg := en0; go_optopt := 0 |}]
           [{| go_ret := 63; go_optarg := []; go_optopt := 120 |}]
           {| go_ret := char_h; go_optarg := []; go_optopt := 0 |} false).
  - repeat constructor.
  - reflexivity.
Defined.

(** X16. A command line of [-o] and [-i] only: every option is handed to
    its setter, in the order of the command line and as often as it occurs,
    then the required options are checked, and only if that check returns
    are the options logged and does the function return; an answer [-1] of
    [getopt] ends the options whatever would follow it. *)
Theorem parseArguments_applies_options_in_order (pre post : list getopt_reply)
  (required_ok : bool) :
  Forall (fun r => is_setter r = true) pre ->
  (post = [] \/ exists r rest, post = r :: rest /\ go_ret r = -1) ->
  parseArguments (pre ++ post) required_ok
  = if required_ok
    then (map setter_call pre ++ [CheckRequired; LogOptions], CliParsed)
    else (map setter_call pre ++ [CheckRequired], CliFatal).
Proof.
  intros Hpre Hpost. unfold parseArguments.
  rewrite (getopt_loop_setters pre post Hpre).
  assert (getopt_loop post = ([], CliParsed)) as E.
  { destruct Hpost as [-> | [r [rest [-> Er]]]]; [reflexivity |].
    cbn [getopt_loop]. rewrite Er. reflexivity. }
  rewrite E. cbn [fst snd]. rewrite app_nil_r. reflexivity.
Qed.

Lemma parseArguments_applies_options_in_order_witness :
  parseArguments
    ([{| go_ret := char_i; go_optarg := en0; go_optopt := 0 |};
      {| go_ret := char_o; go_optarg := []; go_optopt := 0 |};
      {| go_ret := char_i; go_optarg := []; go_optopt := 0 |}] ++ [])
    true
  = (map setter_call
         [{| go_ret := char_i; go_optarg := en0; go_optopt := 0 |};
          {| go_ret := char_o; go_optarg := []; go_optopt := 0 |};
          {| go_ret := char_i; go_optarg := []; go_optopt := 0 |}]
       ++ [CheckRequired; LogOptions],
     CliParsed).
Proof.
  apply (parseArguments_applies_options_in_order
           [{| go_ret := char_i; go_optarg := en0; go_optopt := 0 |};
            {| go_ret := char_o; go_optarg := []; go_optopt := 0 |};
            {| go_ret := char_i; go_optarg := []; go_optopt := 0 |}] [] true).
  - repeat constructor.
  - left. reflexivity.
Defined.

(** ** [main]: the phases together *)

Lemma deliveries_stopped (resets : bool) (n : nat) :
  forall p,
    alive p = true -> sigint_action p = Installed -> (0 < n)%nat ->
    deliveries resets n p
    = {| running := false; sigint_action := Installed; ctl := ctl p |}.
Proof.
  induction n as [| n IH]; intros p Ha Hi Hn; [lia |].
  cbn [deliveries]. rewrite (deliver_SIGINT_handled resets p Ha Hi).
  destruct n as [| n]; [reflexivity |].
  rewrite IH; [reflexivity | | reflexivity | lia].
  unfold alive in *. exact Ha.
Qed.

Lemma no_close_in_phases (cli : list cli_call) (cs : list syscall)
  (tr : list event) :
  filter is_close (map Cli cli ++ map Sys cs ++ map Capture tr) = [].
Proof.
  rewrite !filter_app.
  assert (forall A (f : A -> main_event) (l : list A),
             (forall a, is_close (f a) = false) ->
             filter is_close (map f l) = []) as H.
  { intros A f l Hf. induction l as [| a l IH]; [reflexivity |].
    simpl. rewrite Hf. exact IH. }
  rewrite !H by reflexivity. reflexivity.
Qed.

Lemma not_closed (l : list main_event) (fd : Z) :
  filter is_close l = [] -> ~ In (Close fd) l.
Proof.
  intros Hf Hin.
  assert (In (Close fd) (filter is_close l)) as H
      by (apply filter_In; split; [exact Hin | reflexivity]).
  rewrite Hf in H. contradiction.
Qed.

Section AtTheTest.

Variable abi : bpf_abi.
Variable bpf_buff_size : Z.
Variable resets : bool.

Lemma act_winding_up (a : action) (p : process) :
  winding_up p ->
  fst (act abi bpf_buff_size resets a p) = []
  /\ winding_up (snd (act abi bpf_buff_size resets a p))
  /\ (ctl p = Returned \/ (exists k, a = Step k) ->
      ctl (snd (act abi bpf_buff_size resets a p)) = Returned).
Proof.
  intros [Hr [Hi Hc]]. destruct a as [k |]; simpl.
  - unfold sniff_step. destruct p as [r sa c]; simpl in *. subst r sa.
    destruct Hc as [-> | ->]; simpl; repeat split; auto.
  - rewrite deliver_SIGINT_handled; [| | exact Hi].
    + simpl. repeat split; auto.
      intros [E | [k E]]; [exact E | discriminate].
    + unfold alive. destruct Hc as [-> | ->]; reflexivity.
Qed.

Lemma run_winding_up (acts : list action) :
  forall p,
    winding_up p ->
    fst (run abi bpf_buff_size resets acts p) = []
    /\ winding_up (snd (run abi bpf_buff_size resets acts p))
    /\ (ctl p = Returned \/ (exists k, In (Step k) acts) ->
        ctl (snd (run abi bpf_buff_size resets acts p)) = Returned).
Proof.
  induction acts as [| a rest IH]; intros p W.
  - simpl. split; [reflexivity |]. split; [exact W |].
    intros [E | [k Hk]]; [exact E | contradiction].
  - rewrite run_cons. cbn [fst snd].
    destruct (act_winding_up a p W) as [E [W' R]].
    destruct (IH _ W') as [E' [W'' R']].
    rewrite E, E'. repeat split; try apply W''.
    intros H. apply R'.
    destruct H as [Hc | [k [Hk | Hk]]].
    + left. apply R. now left.
    + left. apply R. right. exists k. exact Hk.
    + right. exists k. exact Hk.
Qed.

End AtTheTest.

(** X17. The device is closed only at the orderly end.  In every run of
    the program, if [close] is called at all then it is called once, as the
    last thing the program does before [main] returns 0, on the descriptor
    [initializeDevice] handed back; and a [SIGINT] was delivered, before or
    during [sniff].  A run that ends in any other way leaves the descriptor
    open. *)
Theorem main_closes_only_the_opened_device (abi : bpf_abi)
  (MAX_BPF_DEVICES : nat) (resets : bool) (i : main_input) (fd : Z) :
  In (Close fd) (fst (main abi MAX_BPF_DEVICES resets i)) ->
  snd (main abi MAX_BPF_DEVICES resets i) = Exited 0
  /\ (exists blen s,
         initializeDevice (mi_kernel i) MAX_BPF_DEVICES (mi_interface_name i)
                          (os_start (mi_errno i))
         = (Value (fd, blen), s))
  /\ ((0 < mi_early_sigints i)%nat \/ In Interrupt (mi_schedule i))
  /\ (exists front,
         fst (main abi MAX_BPF_DEVICES resets i) = front ++ [Close fd]
         /\ filter is_close front = []).
Proof.
  unfold main.
  destruct (mi_config_ok i); [| intros []].
  destruct (parseArguments (mi_getopt i) (mi_required_ok i))
    as [cli [status | |]].
  - intros H. exfalso.
    apply (not_closed (map Cli cli) fd); [| exact H].
    pose proof (no_close_in_phases cli [] []) as N.
    simpl in N. rewrite app_nil_r in N. exact N.
  - intros H. exfalso.
    apply (not_closed (map Cli cli) fd); [| exact H].
    pose proof (no_close_in_phases cli [] []) as N.
    simpl in N. rewrite app_nil_r in N. exact N.
  - destruct (initializeDevice (mi_kernel i) MAX_BPF_DEVICES
                (mi_interface_name i) (os_start (mi_errno i)))
      as [[[bpf size] | e |] s] eqn:EI.
    + destruct (run abi size resets (mi_schedule i)
                    (deliveries resets (mi_early_sigints i) main_prologue))
        as [tr p] eqn:ER.
      pose proof (no_close_in_phases cli (calls s) tr) as N.
      destruct (ctl p) eqn:EC; cbn [fst snd];
        try (intros H; exfalso; exact (not_closed _ fd N H)).
      intros H. apply in_app_or in H as [H | H];
        [exfalso; exact (not_closed _ fd N H) |].
      destruct H as [H | []]. inversion H; subst bpf.
      split; [reflexivity |]. split; [eauto |]. split.
      * destruct (mi_early_sigints i) as [| n] eqn:EE; [| left; lia].
        right. cbn [deliveries] in ER.
        assert (snd (run abi size resets (mi_schedule i) main_prologue) = p)
          as EP by (rewrite ER; reflexivity).
        assert (running p = false) as Hf.
        { rewrite <- EP. apply run_returned_stopped.
          - discriminate.
          - rewrite EP. exact EC. }
        destruct (interrupt_or_steps (mi_schedule i)) as [Hin | [ks Hks]];
          [exact Hin |].
        rewrite Hks in EP.
        assert (running p = true) as Ht
            by (rewrite <- EP, run_steps_running; reflexivity).
        congruence.
      * eexists. split; [reflexivity | exact N].
    + intros H. exfalso.
      apply (not_closed (map Cli cli ++ map Sys (calls s)) fd); [| exact H].
      pose proof (no_close_in_phases cli (calls s) []) as N.
      simpl in N. rewrite app_nil_r in N. exact N.
    + intros H. exfalso.
      apply (not_closed (map Cli cli ++ map Sys (calls s)) fd); [| exact H].
      pose proof (no_close_in_phases cli (calls s) []) as N.
      simpl in N. rewrite app_nil_r in N. exact N.
Qed.

Lemma main_closes_only_the_opened_device_witness :
  snd (main abi_align8 4 false input_interrupted_early) = Exited 0
  /\ ((0 < mi_early_sigints input_interrupted_early)%nat
      \/ In Interrupt (mi_schedule input_interrupted_early)).
Proof.
  destruct (main_closes_only_the_opened_device
              abi_align8 4 false input_interrupted_early 3)
    as [H1 [_ [H2 _]]].
  - vm_compute. auto 20.
  - split; [exact H1 | exact H2].
Defined.

(** X18. An interrupt during start-up is not lost.  When the arguments
    are accepted, a device is opened and configured, and a [SIGINT] has
    arrived before [sniff] is called, then as soon as [sniff] takes its
    first step it returns: the program makes no [read], hands no frame to
    the sink, closes the descriptor and returns 0. *)
Theorem main_interrupted_before_capture (abi : bpf_abi)
  (MAX_BPF_DEVICES : nat) (resets : bool) (i : main_input)
  (cli : list cli_call) (fd blen : Z) (s : os) (k : read_reply) :
  mi_config_ok i = true ->
  parseArguments (mi_getopt i) (mi_required_ok i) = (cli, CliParsed) ->
  initializeDevice (mi_kernel i) MAX_BPF_DEVICES (mi_interface_name i)
                   (os_start (mi_errno i))
  = (Value (fd, blen), s) ->
  (0 < mi_early_sigints i)%nat ->
  In (Step k) (mi_schedule i) ->
  main abi MAX_BPF_DEVICES resets i
  = (map Cli cli ++ map Sys (calls s) ++ [Close fd], Exited 0).
Proof.
  intros Hcfg Hcli Hinit Hearly Hstep.
  unfold main. rewrite Hcfg, Hcli, Hinit.
  rewrite (deliveries_stopped resets (mi_early_sigints i) main_prologue
             eq_refl eq_refl Hearly).
  destruct (run_winding_up abi blen resets (mi_schedule i)
              {| running := false; sigint_action := Installed;
                 ctl := ctl main_prologue |}) as [E [_ R]].
  { repeat split. left. reflexivity. }
  destruct (run abi blen resets (mi_schedule i)
                {| running := false; sigint_action := Installed;
                   ctl := ctl main_prologue |}) as [tr p].
  cbn [fst snd] in *. subst tr.
  rewrite R by (right; exists k; exact Hstep).
  unfold deinitializeDevice. cbn [map]. rewrite app_nil_r, <- app_assoc.
  reflexivity.
Qed.

Lemma main_interrupted_before_capture_witness :
  main abi_align8 4 false input_interrupted_early
  = (map Cli [SetInterfaceName en0; CheckRequired; LogOptions]
       ++ map Sys [Open 0; Open 1; Open 2; Ioctl 3 (BIOCSETIF en0);
                   Ioctl 3 (BIOCIMMEDIATE 1); Ioctl 3 BIOCGBLEN]
       ++ [Close 3],
     Exited 0).
Proof.
  apply (main_interrupted_before_capture abi_align8 4 false
           input_interrupted_early
           [SetInterfaceName en0; CheckRequired; LogOptions] 3 4096
           {| errno := ENOENT;
              calls := [Open 0; Open 1; Open 2; Ioctl 3 (BIOCSETIF en0);
                        Ioctl 3 (BIOCIMMEDIATE 1); Ioctl 3 BIOCGBLEN] |}
           reply_two_records).
  - reflexivity.
  - reflexivity.
  - reflexivity.
  - simpl. lia.
  - simpl. auto.
Defined.

(** X19. Asking for help touches no device.  With the configuration
    accepted, a command line on which [-h] follows only [-o] and [-i] makes
    the program apply those options, print the usage and exit with status 0:
    no device is opened, nothing is captured, whatever follows [-h] and
    whether or not an interface was named. *)
Theorem main_help_opens_no_device (abi : bpf_abi) (MAX_BPF_DEVICES : nat)
  (resets : bool) (i : main_input) (pre post : list getopt_reply)
  (r : getopt_reply) :
  mi_config_ok i = true ->
  mi_getopt i = pre ++ r :: post ->
  Forall (fun r => is_setter r = true) pre ->
  go_ret r = char_h ->
  main abi MAX_BPF_DEVICES resets i
  = (map Cli (map setter_call pre ++ [PrintUsage]), Exited 0).
Proof.
  intros Hcfg Hopt Hpre Hh. unfold main, parseArguments.
  rewrite Hcfg, Hopt, (getopt_loop_setters pre (r :: post) Hpre).
  cbn [getopt_loop]. rewrite Hh. reflexivity.
Qed.

Lemma main_help_opens_no_device_witness :
  main abi_darwin 4 false
       {| mi_config_ok := true;
          mi_getopt := [] ++ {| go_ret := char_h; go_optarg := [];
                                go_optopt := 0 |} :: [];
          mi_required_ok := false;
          mi_interface_name := [];
          mi_kernel := kernel_of [SysOk 3];
          mi_errno := 0;
          mi_early_sigints := 0;
          mi_schedule := [] |}
  = (map Cli (map setter_call [] ++ [PrintUsage]), Exited 0).
Proof.
  apply (main_help_opens_no_device abi_darwin 4 false _ [] []
           {| go_ret := char_h; go_optarg := []; go_optopt := 0 |}).
  - reflexivity.
  - reflexivity.
  - constructor.
  - reflexivity.
Defined.

Lemma buffers_hold_bounds (MAX_BPF_DEVICES : nat)
  (interface_name : list OCTET) :
  buffers_hold MAX_BPF_DEVICES interface_name ->
  (MAX_BPF_DEVICES <= 100)%nat /\ (length interface_name < 16)%nat.
Proof.
  intros [Hpath Hname]. split.
  - destruct (Nat.le_gt_cases MAX_BPF_DEVICES 100) as [H | H]; [exact H |].
    specialize (Hpath 100 ltac:(lia)).
    unfold device_path_size, buffer_char_size in Hpath. simpl in Hpath. lia.
  - unfold IFNAMSIZ in Hname. lia.
Qed.

(** ** Shutdown *)

(** The step that makes the [read], with [running] false: without data
    the function returns at the next step; with data it returns once the
    walk of that data has ended. *)
Lemma run_read_then_return (abi : bpf_abi) (bpf_buff_size : Z)
  (resets : bool) (k : read_reply) (ks : list read_reply) (p : process) :
  ctl p = Reading -> running p = false ->
  (rr_ret k <= 0 -> ks <> [] ->
   run abi bpf_buff_size resets (map Step (k :: ks)) p
   = ([Read (rr_ret k)], set_ctl Returned p))
  /\ (forall fuel cf,
         0 < rr_ret k ->
         snd (walk abi (after_read bpf_buff_size k) (rr_ret k) fuel 0)
         = Finished cf ->
         length ks = S fuel ->
         run abi bpf_buff_size resets (map Step (k :: ks)) p
         = (Read (rr_ret k)
              :: fst (walk abi (after_read bpf_buff_size k) (rr_ret k) fuel 0),
            set_ctl Returned p)).
Proof.
  intros Hc Hr. split.
  - intros Hn Hks. cbn [map]. rewrite run_cons. cbn [act].
    unfold sniff_step. rewrite Hc.
    destruct (Z.ltb_spec 0 (rr_ret k)) as [Hpos | _]; [lia |].
    cbn [fst snd].
    rewrite (run_steps_from_test_stopped abi bpf_buff_size resets ks
               (set_ctl LoopHead p) eq_refl Hr Hks).
    reflexivity.
  - intros fuel cf Hpos Hw Hlen. cbn [map]. rewrite run_cons. cbn [act].
    unfold sniff_step. rewrite Hc.
    destruct (Z.ltb_spec 0 (rr_ret k)) as [_ | Hle]; [| lia].
    cbn [fst snd].
    rewrite (run_walk_then_return abi bpf_buff_size resets
               (after_read bpf_buff_size k) (rr_ret k) fuel 0 cf ks
               (set_ctl (Walking (after_read bpf_buff_size k) (rr_ret k) 0) p)
               eq_refl Hr Hw Hlen).
    reflexivity.
Qed.

(** C6, as the program has it.  Once [running] is false it stays false,
    and from then on the process makes no [read] except the one of an
    iteration that had already passed the test of line 166; an iteration is
    entered from the test only with [running] true.  [sniff] returns when
    the iteration under way is over: at the loop test, at the next step;
    before a [read] that brings nothing, two steps later; inside or before
    the walk of a read, one step after that walk has ended.  Nothing bounds
    the walk itself. *)
Theorem sniff_stops_when_running_cleared (abi : bpf_abi) (bpf_buff_size : Z)
  (resets : bool) (p : process) :
  running p = false ->
  (forall acts,
      running (snd (run abi bpf_buff_size resets acts p)) = false
      /\ (length (read_calls (fst (run abi bpf_buff_size resets acts p)))
          <= pending_reads (ctl p))%nat)
  /\ (ctl p = LoopHead ->
      (forall k, sniff_step abi bpf_buff_size k p = ([], set_ctl Returned p))
      /\ (forall acts,
             read_calls (fst (run abi bpf_buff_size resets acts p)) = []))
  /\ (forall q k,
         ctl q = LoopHead ->
         ctl (snd (sniff_step abi bpf_buff_size k q)) = Reading ->
         running q = true)
  /\ (forall buf n c cf fuel ks,
         ctl p = Walking buf n c ->
         snd (walk abi buf n fuel c) = Finished cf ->
         length ks = S fuel ->
         run abi bpf_buff_size resets (map Step ks) p
         = (fst (walk abi buf n fuel c), set_ctl Returned p))
  /\ (forall k ks,
         ctl p = Reading -> rr_ret k <= 0 -> ks <> [] ->
         run abi bpf_buff_size resets (map Step (k :: ks)) p
         = ([Read (rr_ret k)], set_ctl Returned p))
  /\ (forall k ks fuel cf,
         ctl p = Reading -> 0 < rr_ret k ->
         snd (walk abi (after_read bpf_buff_size k) (rr_ret k) fuel 0)
         = Finished cf ->
         length ks = S fuel ->
         run abi bpf_buff_size resets (map Step (k :: ks)) p
         = (Read (rr_ret k)
              :: fst (walk abi (after_read bpf_buff_size k) (rr_ret k) fuel 0),
            set_ctl Returned p)).
Proof.
  intros Hr. split; [| split; [| split; [| split; [| split]]]].
  - intros acts. apply run_stopped. exact Hr.
  - intros Hc. split.
    + intros k. unfold sniff_step. rewrite Hc, Hr. reflexivity.
    + intros acts.
      destruct (run_stopped abi bpf_buff_size resets acts p Hr) as [_ Hle].
      rewrite Hc in Hle. simpl in Hle.
      destruct (read_calls (fst (run abi bpf_buff_size resets acts p)));
        [reflexivity | simpl in Hle; lia].
  - intros q k Hc. unfold sniff_step. rewrite Hc.
    destruct (running q); [reflexivity | discriminate].
  - intros buf n c cf fuel ks Hc Hw Hlen.
    eapply run_walk_then_return; eassumption.
  - intros k ks Hc Hn Hks.
    apply (run_read_then_return abi bpf_buff_size resets k ks p Hc Hr);
      assumption.
  - intros k ks fuel cf Hc Hpos Hw Hlen.
    apply (proj2 (run_read_then_return abi bpf_buff_size resets k ks p Hc Hr)
             fuel cf); assumption.
Qed.

Lemma sniff_stops_when_running_cleared_witness :
  sniff_step abi_darwin 4096 reply_two_records
             (deliver_SIGINT false main_prologue)
  = ([], set_ctl Returned (deliver_SIGINT false main_prologue))
  /\ read_calls
       (fst (run abi_darwin 4096 false
                 [Step reply_two_records; Step reply_two_records; Interrupt;
                  Step reply_two_records]
                 (deliver_SIGINT false main_prologue))) = [].
Proof.
  destruct (sniff_stops_when_running_cleared
              abi_darwin 4096 false (deliver_SIGINT false main_prologue))
    as [_ [H _]].
  - reflexivity.
  - destruct H as [H1 H2]; [reflexivity |].
    split; [apply H1 | apply H2].
Defined.

(** C6 as stated fails when the flag is cleared during a walk that does not
    end.  After a read of one byte into the cleared buffer the header at
    offset 0 reads as an empty record; a [SIGINT] delivered then clears
    [running], but the inner loop never tests it: in no execution from that
    state does [sniff] return. *)
Lemma sniff_interrupted_in_walk_counterexample :
  running process_interrupted_in_walk = false
  /\ ~ sniff_can_return abi_darwin 4096 false process_interrupted_in_walk.
Proof.
  assert (process_interrupted_in_walk
          = {| running := false; sigint_action := Installed;
               ctl := Walking (after_read 4096 reply_one_byte) 1 0 |}) as E
      by (vm_compute; reflexivity).
  rewrite E. split; [reflexivity |].
  intros [acts H].
  assert (hdr_at abi_darwin (after_read 4096 reply_one_byte) 0
          = Some {| bh_caplen := 0; bh_hdrlen := 0 |}) as Hh
      by (vm_compute; reflexivity).
  destruct (run_stalled abi_darwin 4096 false acts
              {| running := false; sigint_action := Installed;
                 ctl := Walking (after_read 4096 reply_one_byte) 1 0 |}
              (after_read 4096 reply_one_byte) 1 0
              {| bh_caplen := 0; bh_hdrlen := 0 |}
              eq_refl eq_refl ltac:(lia) Hh eq_refl) as [Hc _].
  rewrite Hc in H. discriminate.
Qed.
